(** * noble / bluez-dbus bindings: UUID codec, operation queue, binding core

    Shallow embedding of [lib/bluez-dbus/queue.js] and
    [lib/bluez-dbus/bindings.js].  JavaScript objects used as dictionaries are
    finite maps, arrays are lists, promises are split into the synchronous
    part of a call and the continuation that runs on the transport's answer,
    and the events a component emits are collected in a trace. *)

From Stdlib Require Import Ascii String NArith List Bool Arith Lia.
From stdpp Require Import base option list strings gmap fin_maps.
Import ListNotations.

Local Open Scope string_scope.

(** ** JavaScript strings

    A string is a sequence of code units; the model covers the strings whose
    code units are all in U+0000..U+00FF, which contain every character a
    UUID can be written with.  On these strings [toLowerCase] works unit by
    unit and keeps the length; on other strings it need not (U+0130 becomes
    two code units), so what is proved below about lowercasing is proved for
    the strings of this range. *)
Module JsString.

(** [String.prototype.toLowerCase] on one code unit of the Latin-1 range:
    A..Z and the accented capitals U+00C0..U+00DE (U+00D7, the multiplication
    sign, has no case) move 32 places up, everything else is unchanged. *)
Definition lowerCodeUnit (c : ascii) : ascii :=
  let n := N_of_ascii c in
  if ((65 <=? n) && (n <=? 90) ||
      (192 <=? n) && (n <=? 222) && negb (n =? 215))%N
  then ascii_of_N (n + 32) else c.

Fixpoint toLowerCase (s : string) : string :=
  match s with
  | EmptyString => EmptyString
  | String c r => String (lowerCodeUnit c) (toLowerCase r)
  end.

(** [s.replace(/-/g, "")] *)
Fixpoint removeHyphens (s : string) : string :=
  match s with
  | EmptyString => EmptyString
  | String c r =>
      if Ascii.eqb c "-"%char then removeHyphens r else String c (removeHyphens r)
  end.

(** [s.slice(b, e)] for indices [0 <= b <= e]: the code units from [b] up to
    but not including [e], cut short at the end of the string. *)
Definition slice (b e : nat) (s : string) : string := substring b (e - b) s.

(** [parts.join(sep)] *)
Definition join (sep : string) (parts : list string) : string :=
  String.concat sep parts.

End JsString.

(** ** JavaScript objects used as dictionaries

    The registry and the caches are plain objects.  Reading [object[key]]
    answers the object's own property of that name and, when it has none, the
    property that [Object.prototype] has under that name, if any.  The finite
    maps of the model hold the own properties: a key missing in a map reads
    as [undefined] in the program exactly when it is not [inherited]. *)
Module JsObject.

Definition objectPrototype : list string :=
  ["constructor"; "__defineGetter__"; "__defineSetter__"; "hasOwnProperty";
   "__lookupGetter__"; "__lookupSetter__"; "isPrototypeOf";
   "propertyIsEnumerable"; "toString"; "valueOf"; "__proto__";
   "toLocaleString"].

Definition inherited (key : string) : bool :=
  existsb (String.eqb key) objectPrototype.

End JsObject.

(** ** UUID codec (bindings.js, [packUUID] and [unpackUUID]) *)
Module Uuid.
Import JsString.

Definition packUUID (uuid : string) : string :=
  let result := toLowerCase (removeHyphens uuid) in
  result.

Definition unpackUUID (uuid : string) : string :=
  if (String.length uuid =? 32)%nat then
    let parts :=
      [ slice 0 8 uuid; slice 8 12 uuid; slice 12 16 uuid;
        slice 16 20 uuid; slice 20 32 uuid ] in
    toLowerCase (join "-" parts)
  else
    toLowerCase uuid.

(** *** What the words "valid UUID" and "canonical form" mean

    A 128-bit UUID is 32 four-bit digits.  A text denotes it when, hyphens
    apart, it consists of exactly the 32 hexadecimal digits, each in either
    case.  The canonical text writes the digits with [0-9a-f] in groups of
    8, 4, 4, 4 and 12 separated by hyphens. *)

Definition hexValue (c : ascii) : option N :=
  let n := N_of_ascii c in
  if ((48 <=? n) && (n <=? 57))%N then Some (n - 48)%N
  else if ((97 <=? n) && (n <=? 102))%N then Some (n - 87)%N
  else if ((65 <=? n) && (n <=? 70))%N then Some (n - 55)%N
  else None.

Fixpoint digitsOf (s : string) : option (list N) :=
  match s with
  | EmptyString => Some []
  | String c r =>
      if Ascii.eqb c "-"%char then digitsOf r
      else match hexValue c, digitsOf r with
           | Some d, Some ds => Some (d :: ds)
           | _, _ => None
           end
  end.

Definition hexDigit (d : N) : ascii :=
  match String.get (N.to_nat d) "0123456789abcdef" with
  | Some c => c
  | None => "0"%char
  end.

Fixpoint writeDigits (ds : list N) : string :=
  match ds with
  | [] => EmptyString
  | d :: r => String (hexDigit d) (writeDigits r)
  end.

(** Cuts a digit sequence into consecutive groups of the given sizes. *)
Fixpoint groups (sizes : list nat) (ds : list N) : list (list N) :=
  match sizes with
  | [] => []
  | n :: r => firstn n ds :: groups r (skipn n ds)
  end.

Definition canonicalForm (ds : list N) : string :=
  join "-" (List.map writeDigits (groups [8; 4; 4; 4; 12] ds)).

(** *** The description of [unpackUUID] by length alone *)

(** Cuts a string into consecutive groups of the given numbers of code
    units. *)
Fixpoint splitGroups (sizes : list nat) (s : string) : list string :=
  match sizes with
  | [] => []
  | n :: r =>
      substring 0 n s :: splitGroups r (substring n (String.length s - n) s)
  end.

Definition unpackByLength (s : string) : string :=
  if (String.length s =? 32)%nat
  then toLowerCase (join "-" (splitGroups [8; 4; 4; 4; 12] s))
  else toLowerCase s.

End Uuid.

(** ** Operation queue (queue.js)

    The queue object holds the busy flag and the backlog.  An action handed to
    [enqueue] is a JavaScript function; what the queue can see of it is
    whether the call throws before returning or returns something to await,
    and what the await then yields.  The promise [enqueue] returns is named
    by a number, handed out in creation order; resolving and rejecting it
    are recorded in a trace, together with the moment the action is called. *)
Module AsyncQueue.

Inductive Outcome : Type :=
| Fulfils (payload : nat)
| RejectsWith (e : nat).

Inductive Action : Type :=
| ThrowsSync (e : nat)
| Returns (o : Outcome).

(** [{ action, resolve, reject }]: [resolve] and [reject] belong to the
    promise numbered [future]. *)
Record Task : Type := mkTask { action : Action; future : nat }.

Inductive Obs : Type :=
| Started (f : nat)
| Resolved (f : nat) (payload : nat)
| Rejected (f : nat) (e : nat).

Record Queue : Type := mkQueue { _pendingPromise : bool; _tasks : list Task }.

(** The queue together with what surrounds it at run time: the [dequeue]
    call that is stopped at its [await], the number of promises created so
    far, and the trace. *)
Record World : Type := mkWorld {
  queue : Queue;
  awaiting : option Task;
  promises : nat;
  trace : list Obs
}.

Definition AsyncQueue : Queue := mkQueue false [].

Definition newWorld : World := mkWorld AsyncQueue None 0 [].

Definition _getNextTask (q : Queue) : option Task * Queue :=
  match _tasks q with
  | [] => (None, q)
  | task :: rest => (Some task, mkQueue (_pendingPromise q) rest)
  end.

Definition _addTask (task : Task) (q : Queue) : Queue :=
  mkQueue (_pendingPromise q) (_tasks q ++ [task]).

Definition size (q : Queue) : nat := List.length (_tasks q).

Definition setQueue (q : Queue) (w : World) : World :=
  mkWorld q (awaiting w) (promises w) (trace w).

Definition setPending (b : bool) (w : World) : World :=
  setQueue (mkQueue b (_tasks (queue w))) w.

Definition setAwaiting (t : option Task) (w : World) : World :=
  mkWorld (queue w) t (promises w) (trace w).

Definition observe (o : Obs) (w : World) : World :=
  mkWorld (queue w) (awaiting w) (promises w) (trace w ++ [o]).

(** [this._pendingPromise = false; task.resolve(payload);] *)
Definition onFulfilled (task : Task) (payload : nat) (w : World) : World :=
  observe (Resolved (future task) payload) (setPending false w).

(** [catch (e) { this._pendingPromise = false; task.reject(e); }] *)
Definition onRejected (task : Task) (e : nat) (w : World) : World :=
  observe (Rejected (future task) e) (setPending false w).

(** The body of [dequeue] once the busy flag has been found clear; [tasks]
    is the backlog of [w].  The call in the [finally] block finds the flag
    clear again, so it is this same body on the rest of the backlog. *)
Fixpoint dequeueFrom (tasks : list Task) (w : World) : World :=
  match tasks with
  | [] => w
  | task :: rest =>
      let w := setQueue (mkQueue true rest) w in
      let w := observe (Started (future task)) w in
      match action task with
      | ThrowsSync e => dequeueFrom rest (onRejected task e w)
      | Returns _ => setAwaiting (Some task) w
      end
  end.

Definition dequeue (w : World) : World :=
  if _pendingPromise (queue w) then w
  else dequeueFrom (_tasks (queue w)) w.

(** The rest of [dequeue] after its [await]: runs when what the action
    returned has settled. *)
Definition resume (w : World) : World :=
  match awaiting w with
  | None => w
  | Some task =>
      let w := setAwaiting None w in
      match action task with
      | Returns (Fulfils payload) => dequeue (onFulfilled task payload w)
      | Returns (RejectsWith e) => dequeue (onRejected task e w)
      | ThrowsSync _ => w
      end
  end.

(** [enqueue(action)]: returns the new promise with the world it leaves. *)
Definition enqueue (a : Action) (w : World) : World * nat :=
  let f := promises w in
  let w := mkWorld (queue w) (awaiting w) (S f) (trace w) in
  let w := setQueue (_addTask (mkTask a f) (queue w)) w in
  (dequeue w, f).

(** What can happen to a queue: a caller enqueues an action (at any time,
    also while an action is running), or what the running action returned
    settles.  With nothing running there is nothing to settle. *)
Inductive Event : Type :=
| Enqueue (a : Action)
| Settle.

Definition step (w : World) (ev : Event) : World :=
  match ev with
  | Enqueue a => fst (enqueue a w)
  | Settle => resume w
  end.

Definition run (evs : list Event) (w : World) : World := fold_left step evs w.

Fixpoint submitted (evs : list Event) : list Action :=
  match evs with
  | [] => []
  | Enqueue a :: r => a :: submitted r
  | Settle :: r => submitted r
  end.

(** *** Reading a trace *)

Fixpoint starts (tr : list Obs) : list nat :=
  match tr with
  | [] => []
  | Started f :: r => f :: starts r
  | _ :: r => starts r
  end.

Fixpoint completions (tr : list Obs) : list nat :=
  match tr with
  | [] => []
  | Started _ :: r => completions r
  | Resolved f _ :: r => f :: completions r
  | Rejected f _ :: r => f :: completions r
  end.

Fixpoint settlements (tr : list Obs) : list Obs :=
  match tr with
  | [] => []
  | Started _ :: r => settlements r
  | o :: r => o :: settlements r
  end.

(** The actions that are executing after one more observation: a started
    action executes until its promise is resolved or rejected. *)
Definition update (running : list nat) (o : Obs) : list nat :=
  match o with
  | Started f => running ++ [f]
  | Resolved f _ => List.filter (fun g => negb (g =? f)%nat) running
  | Rejected f _ => List.filter (fun g => negb (g =? f)%nat) running
  end.

Definition executing (tr : list Obs) : list nat := fold_left update tr [].

(** At every instant of the trace at most one action is executing. *)
Fixpoint neverOverlap (running : list nat) (tr : list Obs) : bool :=
  (List.length running <=? 1)%nat &&
  match tr with
  | [] => true
  | o :: r => neverOverlap (update running o) r
  end.

(** What the promise of the [k]-th enqueued action is settled with when the
    action alone decides it. *)
Definition verdict (k : nat) (a : Action) : Obs :=
  match a with
  | ThrowsSync e => Rejected k e
  | Returns (RejectsWith e) => Rejected k e
  | Returns (Fulfils payload) => Resolved k payload
  end.

Fixpoint verdicts (k : nat) (acts : list Action) : list Obs :=
  match acts with
  | [] => []
  | a :: r => verdict k a :: verdicts (S k) r
  end.

(** *** The serial execution a queue is meant to produce

    [serial k acts] is the trace of running [acts] one after the other, the
    first under promise number [k]; [tasksFrom k acts] is the backlog made
    of them.  [Inv acts w] says that [w] is a stage of the serial execution
    of [acts], the actions enqueued so far. *)

Fixpoint serial (k : nat) (acts : list Action) : list Obs :=
  match acts with
  | [] => []
  | a :: r => Started k :: verdict k a :: serial (S k) r
  end.

Fixpoint tasksFrom (k : nat) (acts : list Action) : list Task :=
  match acts with
  | [] => []
  | a :: r => mkTask a k :: tasksFrom (S k) r
  end.

Inductive Inv (acts : list Action) (w : World) : Prop :=
| InvIdle :
    awaiting w = None ->
    queue w = mkQueue false [] ->
    promises w = List.length acts ->
    trace w = serial 0 acts ->
    Inv acts w
| InvBusy (finished : list Action) (o : Outcome) (waiting : list Action) :
    acts = (finished ++ Returns o :: waiting)%list ->
    awaiting w = Some (mkTask (Returns o) (List.length finished)) ->
    queue w = mkQueue true (tasksFrom (S (List.length finished)) waiting) ->
    promises w = List.length acts ->
    trace w = (serial 0 finished ++ [Started (List.length finished)])%list ->
    Inv acts w.

End AsyncQueue.

(** ** The binding (bindings.js)

    A method of the binding runs its synchronous part and hands the rest to
    promise callbacks.  A method is modelled as one function that takes what
    the transport answers to the requests it makes ([None] when the request
    is rejected) and returns the binding as its callbacks leave it.  A
    [TypeError] raised in the synchronous part ends the call with [Threw].

    The registry and the caches are maps of own properties.  A device
    identifier or cache key that is missing from a map and is the name of a
    property of [Object.prototype] ([JsObject.inherited]) finds that
    property in the program; the functions below describe the lookups of all
    other keys, and the statements that rest on a key being absent say that
    it is not inherited. *)
Module Bindings.
Import JsString Uuid.
Local Open Scope list_scope.

Inductive JsError : Type := TypeError.

Inductive Result (A : Type) : Type :=
| Returned (a : A)
| Threw (e : JsError).
Arguments Returned {A} a.
Arguments Threw {A} e.

Definition Data : Type := list N.

(** *** Event emitters of the transport (node-ble handles) *)

Inductive Listener : Type :=
| OnConnectBound                       (* this.onConnect.bind(this) *)
| OnDisconnectBound                    (* this.onDisconnect.bind(this) *)
| ForwardNotify (deviceUuid serviceUuid characteristicUuid : string).
                                       (* (e) => this.onNotify(d, s, c, e) *)

(** The listeners of an emitter with the event each was registered for, in
    registration order. *)
Definition Emitter : Type := list (string * Listener).

Definition on (name : string) (l : Listener) (h : Emitter) : Emitter :=
  h ++ [(name, l)].

Definition removeAllListeners (name : string) (h : Emitter) : Emitter :=
  List.filter (fun p => negb (String.eqb (fst p) name)) h.

Definition listeners (name : string) (h : Emitter) : list Listener :=
  List.map snd (List.filter (fun p => String.eqb (fst p) name) h).

Definition listenerCount (name : string) (h : Emitter) : nat :=
  List.length (listeners name h).

(** The argument a transport event is fired with: the [deviceUuid] property
    of a connection event, the bytes of a value change. *)
Record EventObject : Type := mkEvent { deviceUuid : option string; value : Data }.

(** *** Cached data *)

Record Advertisement : Type := mkAdvertisement {
  adv_localName : option string;
  adv_serviceUuids : list string;
  adv_serviceData : list (string * Data)
}.

Record CacheEntry : Type := mkEntry {
  characteristic : Emitter;
  readQueue : AsyncQueue.World;
  writeQueue : AsyncQueue.World
}.

(** The object [_getAdvertisementData] builds.  [bleDevice] is the live
    handle, absent once deleted; [cachedCharacteristics] does not exist
    until a connect or disconnect event creates it.  The manufacturer
    payload and the transmit power are not read by anything below and are
    left out. *)
Record Device : Type := mkDevice {
  uuid : string;
  address : string;
  addressType : string;
  bleDevice : option Emitter;
  paired : bool;
  cachedServices : gmap string nat;
  cachedCharacteristics : option (gmap string (gmap string CacheEntry));
  localName : option string;
  serviceUuids : option (list string);
  advertisement : Advertisement;
  gattServer : option nat
}.

Inductive Emitted : Type :=
| EvScanStart
| EvScanStop
| EvDiscover (uuid address addressType : string) (connectable : bool)
    (advertisement : Advertisement) (hasGatt : bool)
| EvConnect (deviceUuid : option string)
| EvDisconnect (deviceUuid : option string)
| EvRead (deviceUuid serviceUuid characteristicUuid : string) (data : Data)
    (isNotification : bool)
| EvWrite (deviceUuid serviceUuid characteristicUuid : string)
| EvNotify (deviceUuid serviceUuid characteristicUuid : string) (state : bool).

(** The binding object.  [_adapter] tells whether [init] has received the
    default adapter; [_device_by_address] is the property [stopScanning]
    assigns; [timers] are the identifiers of the armed timeouts and
    [nextTimer] the next identifier [setTimeout] hands out; [emitted] is
    what [this.emit] has sent so far. *)
Record NobleBindings : Type := mkBindings {
  _adapter : bool;
  _device_by_uuid : gmap string Device;
  _device_by_address : option (gmap string Device);
  _serviceUuidFilterList : list string;
  _discoveryProcessId : option nat;
  timers : list nat;
  nextTimer : nat;
  emitted : list Emitted
}.

Definition new : NobleBindings := mkBindings false ∅ None [] None [] 0 [].

Definition withDevices (m : gmap string Device) (st : NobleBindings) : NobleBindings :=
  mkBindings (_adapter st) m (_device_by_address st) (_serviceUuidFilterList st)
    (_discoveryProcessId st) (timers st) (nextTimer st) (emitted st).

Definition withDeviceByAddress (m : option (gmap string Device)) (st : NobleBindings)
  : NobleBindings :=
  mkBindings (_adapter st) (_device_by_uuid st) m (_serviceUuidFilterList st)
    (_discoveryProcessId st) (timers st) (nextTimer st) (emitted st).

Definition withFilter (l : list string) (st : NobleBindings) : NobleBindings :=
  mkBindings (_adapter st) (_device_by_uuid st) (_device_by_address st) l
    (_discoveryProcessId st) (timers st) (nextTimer st) (emitted st).

Definition withProcessId (id : option nat) (st : NobleBindings) : NobleBindings :=
  mkBindings (_adapter st) (_device_by_uuid st) (_device_by_address st)
    (_serviceUuidFilterList st) id (timers st) (nextTimer st) (emitted st).

Definition emit (e : Emitted) (st : NobleBindings) : NobleBindings :=
  mkBindings (_adapter st) (_device_by_uuid st) (_device_by_address st)
    (_serviceUuidFilterList st) (_discoveryProcessId st) (timers st) (nextTimer st)
    (emitted st ++ [e]).

Definition setTimeout (st : NobleBindings) : nat * NobleBindings :=
  (nextTimer st,
   mkBindings (_adapter st) (_device_by_uuid st) (_device_by_address st)
     (_serviceUuidFilterList st) (_discoveryProcessId st)
     (timers st ++ [nextTimer st]) (S (nextTimer st)) (emitted st)).

Definition clearTimeout (id : nat) (st : NobleBindings) : NobleBindings :=
  mkBindings (_adapter st) (_device_by_uuid st) (_device_by_address st)
    (_serviceUuidFilterList st) (_discoveryProcessId st)
    (List.filter (fun t => negb (t =? id)%nat) (timers st)) (nextTimer st) (emitted st).

(** *** startScanning *)

(** The values [startScanning] can be called with.  [JObject services] is an
    object whose [services] property reads as [services], [JUndefined] when
    the object has no such property. *)
#[warnings="-register-all"]
Inductive JsValue : Type :=
| JUndefined
| JNull
| JBoolean (b : bool)
| JNumber (n : N)
| JString (s : string)
| JArray (items : list JsValue)
| JObject (services : JsValue).

Definition isArray (v : JsValue) : bool :=
  match v with JArray _ => true | _ => false end.

(** [typeof v === 'object'] *)
Definition typeofObject (v : JsValue) : bool :=
  match v with JNull | JArray _ | JObject _ => true | _ => false end.

Definition isUndefined (v : JsValue) : bool :=
  match v with JUndefined => true | _ => false end.

(** [packUUID(uuid)] on any value: only a string has [replace]. *)
Definition packUUIDValue (v : JsValue) : Result string :=
  match v with
  | JString s => Returned (packUUID s)
  | _ => Threw TypeError
  end.

Fixpoint mapPack (items : list JsValue) : Result (list string) :=
  match items with
  | [] => Returned []
  | v :: r =>
      match packUUIDValue v with
      | Threw e => Threw e
      | Returned s =>
          match mapPack r with
          | Threw e => Threw e
          | Returned l => Returned (s :: l)
          end
      end
  end.

(** The statements of [startScanning] before the first transport request:
    the value of [options.services] they end with. *)
Definition normalizeOptions (options : JsValue) : Result (list string) :=
  let options := if isArray options then JObject options else options in
  let options := if negb (typeofObject options) then JObject options else options in
  match options with
  | JObject services =>
      let services :=
        if negb (isUndefined services) && negb (isArray services)
        then JArray [services] else services in
      match services with
      | JArray items => mapPack items
      | _ => Threw TypeError
      end
  | _ => Threw TypeError
  end.

Definition startScanning (st : NobleBindings) (options : JsValue)
    (discovering : option bool) (started : bool) : Result NobleBindings :=
  match normalizeOptions options with
  | Threw e => Threw e
  | Returned services =>
      if negb (_adapter st) then Threw TypeError else
      match discovering with
      | Some false =>
          let st := withFilter services st in
          if started then
            let st := emit EvScanStart st in
            let st := match _discoveryProcessId st with
                      | Some id => clearTimeout id st
                      | None => st
                      end in
            let (id, st) := setTimeout st in
            Returned (withProcessId (Some id) st)
          else Returned st
      | _ => Returned st
      end
  end.

(** *** stopScanning *)

Definition stopScanning (st : NobleBindings) (discovering : option bool)
    (stopped : bool) : Result NobleBindings :=
  if negb (_adapter st) then Threw TypeError else
  match discovering with
  | Some true =>
      if stopped then
        let st := emit EvScanStop st in
        let st := withDeviceByAddress (Some ∅) st in
        match _discoveryProcessId st with
        | Some id => Returned (withProcessId None (clearTimeout id st))
        | None => Returned st
        end
      else Returned st
  | _ => Returned st
  end.

(** *** Discovery *)

(** What the transport answers to the queries of [_getAdvertisementData]
    for one address.  The first four queries are outside any [try]: when
    one of them is rejected there is no such record and the fetch as a whole
    is rejected.  The others are [None] when rejected. *)
Record DeviceAnswers : Type := mkAnswers {
  ans_device : string;
  ans_address : string;
  ans_addressType : string;
  ans_paired : bool;
  ans_name : option string;
  ans_serviceData : option (list (string * Data));
  ans_serviceUUIDs : option (list string)
}.

Definition _getAdvertisementData (a : DeviceAnswers) : Device :=
  let deviceData :=
    mkDevice (ans_device a) (ans_address a) (ans_addressType a) (Some []) (ans_paired a)
      ∅ None None None (mkAdvertisement None [] []) None in
  let deviceData :=
    match ans_name a with
    | Some localName =>
        mkDevice (uuid deviceData) (address deviceData) (addressType deviceData)
          (bleDevice deviceData) (paired deviceData) (cachedServices deviceData)
          (cachedCharacteristics deviceData) (Some localName) (serviceUuids deviceData)
          (mkAdvertisement (Some localName)
             (adv_serviceUuids (advertisement deviceData))
             (adv_serviceData (advertisement deviceData)))
          (gattServer deviceData)
    | None => deviceData
    end in
  let deviceData :=
    match ans_serviceData a with
    | Some serviceAdvertisementData =>
        mkDevice (uuid deviceData) (address deviceData) (addressType deviceData)
          (bleDevice deviceData) (paired deviceData) (cachedServices deviceData)
          (cachedCharacteristics deviceData) (localName deviceData) (serviceUuids deviceData)
          (mkAdvertisement (adv_localName (advertisement deviceData))
             (adv_serviceUuids (advertisement deviceData))
             (List.map (fun p => (packUUID (fst p), snd p)) serviceAdvertisementData))
          (gattServer deviceData)
    | None => deviceData
    end in
  match ans_serviceUUIDs a with
  | Some serviceUUIDs =>
      mkDevice (uuid deviceData) (address deviceData) (addressType deviceData)
        (bleDevice deviceData) (paired deviceData) (cachedServices deviceData)
        (cachedCharacteristics deviceData) (localName deviceData) (Some serviceUUIDs)
        (mkAdvertisement (adv_localName (advertisement deviceData))
           (List.map packUUID serviceUUIDs)
           (adv_serviceData (advertisement deviceData)))
        (gattServer deviceData)
  | None => deviceData
  end.

(** [list.indexOf(x) !== -1] for [x] read from an array position, which is
    undefined past the end. *)
Definition indexOfFound (l : list string) (x : option string) : bool :=
  match x with
  | Some u => existsb (String.eqb u) l
  | None => false
  end.

(** The [for (i in device.serviceUuids)] loop with its [break]. *)
Fixpoint wantedLoop (filterList advertised : list string) (indices : list nat)
    (found : bool) : bool :=
  match indices with
  | [] => found
  | i :: rest =>
      let found := found || indexOfFound filterList (nth_error advertised i) in
      if found then found else wantedLoop filterList advertised rest found
  end.

(** The advertised list is an array in every device object, and the filter
    is not empty where the second test is made, so that test always passes
    and the loop alone decides. *)
Definition _isAdvertisingWantedCriteria (st : NobleBindings) (device : Device) : bool :=
  if (List.length (_serviceUuidFilterList st) =? 0)%nat then true
  else
    let indices :=
      match serviceUuids device with
      | Some l => seq 0 (List.length l)
      | None => []
      end in
    wantedLoop (_serviceUuidFilterList st)
      (adv_serviceUuids (advertisement device)) indices false.

(** The filter as the specification words it: it is empty, or one of the
    advertised service UUIDs is in it. *)
Definition filterPasses (filterList : list string) (device : Device) : bool :=
  match filterList with
  | [] => true
  | _ =>
      existsb (fun u => existsb (String.eqb u) filterList)
        (adv_serviceUuids (advertisement device))
  end.

(** [delete device.bleDevice] *)
Definition deleteBleDevice (device : Device) : Device :=
  mkDevice (uuid device) (address device) (addressType device) None (paired device)
    (cachedServices device) (cachedCharacteristics device) (localName device)
    (serviceUuids device) (advertisement device) (gattServer device).

Definition discoverEvent (device : Device) : Emitted :=
  EvDiscover (uuid device) (address device) (addressType device)
    (negb (paired device)) (advertisement device) false.

(** The callback of [_onScanningDurationElapsed] that receives a fetched
    device; [uuid] is the registry key computed from the address. *)
Definition onAdvertisementData (st : NobleBindings) (uuid : string) (device : Device)
  : NobleBindings :=
  let '(st, device) :=
    if _isAdvertisingWantedCriteria st device then
      match _device_by_uuid st !! uuid with
      | None =>
          let st := withDevices (<[uuid := device]> (_device_by_uuid st)) st in
          (emit (discoverEvent device) st, device)
      | Some _ => (st, device)
      end
    else (st, deleteBleDevice device) in
  withDevices (<[uuid := device]> (_device_by_uuid st)) st.

(** What a fetched device is registered as, and what is emitted for it,
    when its key is not in the registry yet. *)
Definition registered (st : NobleBindings) (device : Device) : Device :=
  if _isAdvertisingWantedCriteria st device then device else deleteBleDevice device.


Section Tick.

(** [this._adapter.constructor.serializeUUID], a function of the transport
    library. *)
Variable serializeUUID : string -> string.

(** The addresses a tick starts a fetch for. *)
Definition tickFetches (st : NobleBindings) (devices : list string) : list string :=
  List.filter
    (fun address =>
       match _device_by_uuid st !! serializeUUID address with
       | Some _ => false
       | None => true
       end)
    devices.

(** The [finally] callback of a tick. *)
Definition rearm (st : NobleBindings) : NobleBindings :=
  match _discoveryProcessId st with
  | Some _ => let (id, st) := setTimeout st in withProcessId (Some id) st
  | None => st
  end.

(** The fetch of one address completing: the [then] callback on a device,
    the [catch] callback, which only logs, on a rejection. *)
Definition fetched (fetch : string -> option DeviceAnswers) (st : NobleBindings)
    (address : string) : NobleBindings :=
  match fetch address with
  | Some a => onAdvertisementData st (serializeUUID address) (_getAdvertisementData a)
  | None => st
  end.

(** One tick.  [fired] is the timer that expired, [devices] the answer to
    [devices()], [fetch] the answers to the fetches.  The fetches are
    started together, the timer is armed again, and the fetched devices
    arrive afterwards, here in the order of the listing and before anything
    else happens; the sessions of [Discovery] let them settle in any order
    and after later ticks. *)
Definition _onScanningDurationElapsed (st : NobleBindings) (fired : nat)
    (devices : option (list string)) (fetch : string -> option DeviceAnswers)
  : NobleBindings :=
  let st :=
    mkBindings (_adapter st) (_device_by_uuid st) (_device_by_address st)
      (_serviceUuidFilterList st) (_discoveryProcessId st)
      (List.filter (fun t => negb (t =? fired)%nat) (timers st)) (nextTimer st)
      (emitted st) in
  let started :=
    match devices with
    | Some l => tickFetches st l
    | None => []
    end in
  let st := rearm st in
  fold_left (fetched fetch) started st.

End Tick.

(** *** Connection *)

Definition setBleDevice (h : option Emitter) (device : Device) : Device :=
  mkDevice (uuid device) (address device) (addressType device) h (paired device)
    (cachedServices device) (cachedCharacteristics device) (localName device)
    (serviceUuids device) (advertisement device) (gattServer device).

(** [device.cachedServices = {}; device.cachedCharacteristics = {};] *)
Definition resetCaches (device : Device) : Device :=
  mkDevice (uuid device) (address device) (addressType device) (bleDevice device)
    (paired device) ∅ (Some ∅) (localName device) (serviceUuids device)
    (advertisement device) (gattServer device).

(** A property name: [undefined] used as a key reads the property named
    "undefined". *)
Definition propertyKey (k : option string) : string :=
  match k with
  | Some s => s
  | None => "undefined"
  end.

Definition connect (st : NobleBindings) (deviceUuid : string) (connected : bool)
  : Result NobleBindings :=
  match _device_by_uuid st !! deviceUuid with
  | None => Returned st
  | Some device =>
      match bleDevice device with
      | None => Threw TypeError
      | Some h =>
          let h := on "connect" OnConnectBound h in
          let h := on "disconnect" OnDisconnectBound h in
          let st :=
            withDevices (<[deviceUuid := setBleDevice (Some h) device]> (_device_by_uuid st)) st in
          if connected then Returned (emit (EvConnect (Some deviceUuid)) st)
          else Returned st
      end
  end.

Definition onConnect (st : NobleBindings) (e : EventObject) : NobleBindings :=
  let key := propertyKey (Bindings.deviceUuid e) in
  match _device_by_uuid st !! key with
  | None => st
  | Some device =>
      let st := withDevices (<[key := resetCaches device]> (_device_by_uuid st)) st in
      emit (EvConnect (Bindings.deviceUuid e)) st
  end.

Definition onDisconnect (st : NobleBindings) (e : EventObject) : NobleBindings :=
  let key := propertyKey (Bindings.deviceUuid e) in
  match _device_by_uuid st !! key with
  | None => st
  | Some device =>
      let st := withDevices (<[key := resetCaches device]> (_device_by_uuid st)) st in
      emit (EvDisconnect (Bindings.deviceUuid e)) st
  end.

(** *** Characteristics *)

(** [typeof x]: a string in every case. *)
Definition typeof {A : Type} (x : option A) : string :=
  match x with
  | Some _ => "object"
  | None => "undefined"
  end.

(** [t === undefined] for a string [t]: a string is never [undefined]. *)
Definition strictEqualsUndefined (t : string) : bool := false.

(** The cache entry, [None] for [null] and for [undefined], which the
    callers do not tell apart ([== null]). *)
Definition _getCharacteristic (st : NobleBindings)
    (deviceUuid serviceUuid characteristicUuid : string) : Result (option CacheEntry) :=
  match _device_by_uuid st !! deviceUuid with
  | None => Returned None
  | Some device =>
      match cachedCharacteristics device with
      | None => Threw TypeError
      | Some cache =>
          if strictEqualsUndefined (typeof (cache !! unpackUUID serviceUuid))
          then Returned None
          else
            match cache !! unpackUUID serviceUuid with
            | None => Threw TypeError
            | Some entries => Returned (entries !! unpackUUID characteristicUuid)
            end
      end
  end.

(** Writes a changed cache entry back where [_getCharacteristic] found it:
    the entry is one object, shared by the cache and the caller. *)
Definition storeEntry (st : NobleBindings)
    (deviceUuid serviceUuid characteristicUuid : string) (entry : CacheEntry)
  : NobleBindings :=
  match _device_by_uuid st !! deviceUuid with
  | None => st
  | Some device =>
      match cachedCharacteristics device with
      | None => st
      | Some cache =>
          match cache !! unpackUUID serviceUuid with
          | None => st
          | Some entries =>
              let entries := <[unpackUUID characteristicUuid := entry]> entries in
              let cache := <[unpackUUID serviceUuid := entries]> cache in
              let device :=
                mkDevice (uuid device) (address device) (addressType device)
                  (bleDevice device) (paired device) (cachedServices device) (Some cache)
                  (localName device) (serviceUuids device) (advertisement device)
                  (gattServer device) in
              withDevices (<[deviceUuid := device]> (_device_by_uuid st)) st
          end
      end
  end.

(** The action [read] and [write] enqueue is an [async] function whose body
    is one [try] with a [catch] that only logs: what it returns is always
    fulfilled, with no value. *)
Definition loggedOperation : AsyncQueue.Action :=
  AsyncQueue.Returns (AsyncQueue.Fulfils 0).

Definition read (st : NobleBindings)
    (deviceUuid serviceUuid characteristicUuid : string) : Result NobleBindings :=
  match _getCharacteristic st deviceUuid serviceUuid characteristicUuid with
  | Threw e => Threw e
  | Returned None => Returned st
  | Returned (Some entry) =>
      let q := fst (AsyncQueue.enqueue loggedOperation (readQueue entry)) in
      Returned (storeEntry st deviceUuid serviceUuid characteristicUuid
                  (mkEntry (characteristic entry) q (writeQueue entry)))
  end.

(** The body of the read action once [readValue()] has answered, and the
    queue going on after it. *)
Definition readSettled (st : NobleBindings)
    (deviceUuid serviceUuid characteristicUuid : string) (answer : option Data)
  : NobleBindings :=
  let st :=
    match answer with
    | Some data => emit (EvRead deviceUuid serviceUuid characteristicUuid data false) st
    | None => st
    end in
  match _getCharacteristic st deviceUuid serviceUuid characteristicUuid with
  | Returned (Some entry) =>
      storeEntry st deviceUuid serviceUuid characteristicUuid
        (mkEntry (characteristic entry) (AsyncQueue.resume (readQueue entry))
           (writeQueue entry))
  | _ => st
  end.

Definition write (st : NobleBindings)
    (deviceUuid serviceUuid characteristicUuid : string) (data : Data)
    (withoutResponse : bool) : Result NobleBindings :=
  match _getCharacteristic st deviceUuid serviceUuid characteristicUuid with
  | Threw e => Threw e
  | Returned None => Returned st
  | Returned (Some entry) =>
      let q := fst (AsyncQueue.enqueue loggedOperation (writeQueue entry)) in
      Returned (storeEntry st deviceUuid serviceUuid characteristicUuid
                  (mkEntry (characteristic entry) (readQueue entry) q))
  end.

Definition writeSettled (st : NobleBindings)
    (deviceUuid serviceUuid characteristicUuid : string) (written : bool)
  : NobleBindings :=
  let st :=
    if written then emit (EvWrite deviceUuid serviceUuid characteristicUuid) st else st in
  match _getCharacteristic st deviceUuid serviceUuid characteristicUuid with
  | Returned (Some entry) =>
      storeEntry st deviceUuid serviceUuid characteristicUuid
        (mkEntry (characteristic entry) (readQueue entry)
           (AsyncQueue.resume (writeQueue entry)))
  | _ => st
  end.

Definition onNotify (st : NobleBindings)
    (deviceUuid serviceUuid characteristicUuid : string) (e : Data) : NobleBindings :=
  emit (EvRead deviceUuid serviceUuid characteristicUuid e true) st.

(** [notify]; [answered] tells whether the start or stop request was
    fulfilled. *)
Definition notify (st : NobleBindings)
    (deviceUuid serviceUuid characteristicUuid : string) (notify : bool)
    (answered : bool) : Result NobleBindings :=
  match _getCharacteristic st deviceUuid serviceUuid characteristicUuid with
  | Threw e => Threw e
  | Returned None => Returned st
  | Returned (Some entry) =>
      if notify then
        let h :=
          on "valuechanged" (ForwardNotify deviceUuid serviceUuid characteristicUuid)
            (characteristic entry) in
        let st :=
          storeEntry st deviceUuid serviceUuid characteristicUuid
            (mkEntry h (readQueue entry) (writeQueue entry)) in
        if answered
        then Returned (emit (EvNotify deviceUuid serviceUuid characteristicUuid true) st)
        else Returned st
      else
        let h := removeAllListeners "valuechanged" (characteristic entry) in
        let st :=
          storeEntry st deviceUuid serviceUuid characteristicUuid
            (mkEntry h (readQueue entry) (writeQueue entry)) in
        if answered
        then Returned (emit (EvNotify deviceUuid serviceUuid characteristicUuid false) st)
        else Returned st
  end.

(** *** The transport firing an event on a handle *)

Definition callListener (st : NobleBindings) (l : Listener) (e : EventObject)
  : NobleBindings :=
  match l with
  | OnConnectBound => onConnect st e
  | OnDisconnectBound => onDisconnect st e
  | ForwardNotify d s c => onNotify st d s c (value e)
  end.

(** [handle.emit(name, e)]: the listeners registered for [name] are called
    in registration order. *)
Definition fire (h : Emitter) (name : string) (e : EventObject) (st : NobleBindings)
  : NobleBindings :=
  fold_left (fun st l => callListener st l e) (listeners name h) st.

(** The handle of a registered device fires [name]. *)
Definition deviceFires (st : NobleBindings) (key : string) (name : string)
    (e : EventObject) : NobleBindings :=
  match _device_by_uuid st !! key with
  | Some device =>
      match bleDevice device with
      | Some h => fire h name e st
      | None => st
      end
  | None => st
  end.

(** The handle of a cached characteristic fires [name]. *)
Definition characteristicFires (st : NobleBindings)
    (deviceUuid serviceUuid characteristicUuid : string) (name : string)
    (e : EventObject) : NobleBindings :=
  match _getCharacteristic st deviceUuid serviceUuid characteristicUuid with
  | Returned (Some entry) => fire (characteristic entry) name e st
  | _ => st
  end.

(** Repeated calls, as a caller makes them one after the other. *)
Fixpoint connectEach (st : NobleBindings) (deviceUuid : string) (answers : list bool)
  : Result NobleBindings :=
  match answers with
  | [] => Returned st
  | connected :: rest =>
      match connect st deviceUuid connected with
      | Threw e => Threw e
      | Returned st => connectEach st deviceUuid rest
      end
  end.

Fixpoint notifyEach (st : NobleBindings)
    (deviceUuid serviceUuid characteristicUuid : string) (answers : list bool)
  : Result NobleBindings :=
  match answers with
  | [] => Returned st
  | answered :: rest =>
      match notify st deviceUuid serviceUuid characteristicUuid true answered with
      | Threw e => Threw e
      | Returned st => notifyEach st deviceUuid serviceUuid characteristicUuid rest
      end
  end.

(** *** The two listener properties the specification asks for *)

(** The handle of the device carries at most one connect and one disconnect
    listener, and one transport connect event is relayed once. *)
Definition boundOnce (st : NobleBindings) (deviceUuid : string) : Prop :=
  exists device h,
    _device_by_uuid st !! deviceUuid = Some device /\
    bleDevice device = Some h /\
    listenerCount "connect" h <= 1 /\
    listenerCount "disconnect" h <= 1 /\
    emitted (deviceFires st deviceUuid "connect" (mkEvent (Some deviceUuid) []))
    = emitted st ++ [EvConnect (Some deviceUuid)].

(** The handle of the characteristic carries exactly one value-change
    listener, and one value change is forwarded as one [read]. *)
Definition subscribedOnce (st : NobleBindings)
    (deviceUuid serviceUuid characteristicUuid : string) : Prop :=
  exists entry,
    _getCharacteristic st deviceUuid serviceUuid characteristicUuid
    = Returned (Some entry) /\
    listenerCount "valuechanged" (characteristic entry) = 1 /\
    forall data,
      emitted (characteristicFires st deviceUuid serviceUuid characteristicUuid
                 "valuechanged" (mkEvent None data))
      = emitted st ++ [EvRead deviceUuid serviceUuid characteristicUuid data true].

End Bindings.

(** ** Sample states, as the statements below are tried on them *)
Module Samples.
Import Uuid Bindings.

Definition legoService : string := "00001623-1212-efde-1623-785feabcd123".
Definition legoCharacteristic : string := "00001624-1212-efde-1623-785feabcd123".

(** A device as a connect event leaves it: caches present and empty. *)
Definition hub : Device :=
  mkDevice "dev_A" "AA:BB:CC:DD:EE:FF" "public" (Some []) false
    ∅ (Some ∅) None None (mkAdvertisement None [] []) None.

(** A device as discovery registers it: no characteristic cache yet. *)
Definition seenHub : Device :=
  mkDevice "dev_A" "AA:BB:CC:DD:EE:FF" "public" (Some []) false
    ∅ None None None (mkAdvertisement None [] []) None.

Definition freshEntry : CacheEntry :=
  mkEntry [] AsyncQueue.newWorld AsyncQueue.newWorld.

(** The same device once the characteristics of one service are cached. *)
Definition exploredHub : Device :=
  mkDevice "dev_A" "AA:BB:CC:DD:EE:FF" "public" (Some []) false
    ∅ (Some {[ legoService := {[ legoCharacteristic := freshEntry ]} ]})
    None None (mkAdvertisement None [] []) None.

Definition bindingsWith (device : Device) : NobleBindings :=
  mkBindings true {[ "dev_A" := device ]} None [] None [] 0 [].

(** A binding in the middle of a scan: one device seen, the timer armed. *)
Definition scanning : NobleBindings :=
  mkBindings true {[ "dev_A" := seenHub ]} None [] (Some 0) [0] 1 [EvScanStart].

(** A transport that lists three addresses of which only "B" advertises
    the wanted service. *)
Definition serialize (address : string) : string := String.append "dev_" address.

Definition answersFor (address : string) : option DeviceAnswers :=
  Some (mkAnswers (serialize address) address "public" false None None
          (if String.eqb address "B" then Some [legoService]
           else Some ["0000180f-0000-1000-8000-00805f9b34fb"])).

Definition filtering : NobleBindings :=
  mkBindings true ∅ None [packUUID legoService] (Some 0) [0] 1 [EvScanStart].

End Samples.

(** ** The rest of the binding: adapter, disconnection, GATT discovery

    The events these methods emit, which the trace of the binding above has
    no constructor for, are returned beside the binding, in emission
    order. *)
Module Gatt.
Import JsString Uuid Bindings.
Local Open Scope list_scope.

(** [{ uuid, properties }], an element of the [characteristicsDiscover]
    payload. *)
Record CharacteristicInfo : Type := mkInfo {
  info_uuid : string;
  info_properties : list string
}.

Inductive GattEvent : Type :=
| EvStateChange (state : string)
| EvServicesDiscover (deviceUuid : string) (serviceUuids : list string)
| EvCharacteristicsDiscover (deviceUuid serviceUuid : string)
    (characteristics : list CharacteristicInfo).

Definition withAdapter (st : NobleBindings) : NobleBindings :=
  mkBindings true (_device_by_uuid st) (_device_by_address st)
    (_serviceUuidFilterList st) (_discoveryProcessId st) (timers st) (nextTimer st)
    (emitted st).

(** [init]; [adapter] tells whether [defaultAdapter()] was fulfilled. *)
Definition init (st : NobleBindings) (adapter : bool) : NobleBindings * list GattEvent :=
  if adapter then (withAdapter st, [EvStateChange "poweredOn"]) else (st, []).

Definition setGattServer (g : option nat) (device : Device) : Device :=
  mkDevice (uuid device) (address device) (addressType device) (bleDevice device)
    (paired device) (cachedServices device) (cachedCharacteristics device)
    (localName device) (serviceUuids device) (advertisement device) g.

Definition setServiceUuids (l : option (list string)) (device : Device) : Device :=
  mkDevice (uuid device) (address device) (addressType device) (bleDevice device)
    (paired device) (cachedServices device) (cachedCharacteristics device)
    (localName device) l (advertisement device) (gattServer device).

Definition setCachedServices (m : gmap string nat) (device : Device) : Device :=
  mkDevice (uuid device) (address device) (addressType device) (bleDevice device)
    (paired device) m (cachedCharacteristics device)
    (localName device) (serviceUuids device) (advertisement device) (gattServer device).

Definition setCachedCharacteristics
    (c : option (gmap string (gmap string CacheEntry))) (device : Device) : Device :=
  mkDevice (uuid device) (address device) (addressType device) (bleDevice device)
    (paired device) (cachedServices device) c
    (localName device) (serviceUuids device) (advertisement device) (gattServer device).

(** [disconnect]; [connected] is the answer of [isConnected()]. *)
Definition disconnect (st : NobleBindings) (deviceUuid : string) (connected : bool)
  : Result NobleBindings :=
  match _device_by_uuid st !! deviceUuid with
  | None => Returned st
  | Some device =>
      match bleDevice device with
      | None => Threw TypeError
      | Some _ =>
          if negb connected then Returned (emit (EvDisconnect (Some deviceUuid)) st)
          else
            Returned
              (withDevices
                 (<[deviceUuid := setGattServer None device]> (_device_by_uuid st)) st)
      end
  end.

(** [discoverServices]; [gatt] is the answer of [bleDevice.gatt()], a GATT
    root handle, and [services] the answer of [gatt.services()]. *)
Definition discoverServices (st : NobleBindings) (deviceUuid : string)
    (gatt : option nat) (services : option (list string))
  : Result (NobleBindings * list GattEvent) :=
  match _device_by_uuid st !! deviceUuid with
  | None => Returned (st, [])
  | Some device =>
      match bleDevice device with
      | None => Threw TypeError
      | Some _ =>
          match gatt with
          | None => Returned (st, [])
          | Some g =>
              let device := setGattServer (Some g) device in
              match services with
              | None =>
                  Returned
                    (withDevices (<[deviceUuid := device]> (_device_by_uuid st)) st, [])
              | Some l =>
                  let device := setServiceUuids (Some l) device in
                  Returned
                    (withDevices (<[deviceUuid := device]> (_device_by_uuid st)) st,
                     [EvServicesDiscover deviceUuid (List.map packUUID l)])
              end
          end
      end
  end.

(** The table from BlueZ flags to noble properties, in key order. *)
Definition characteristicMapping : list (string * string) :=
  [ ("read", "read");
    ("write-without-response", "writeWithoutResponse");
    ("write", "write");
    ("notify", "notify") ].

(** The inner loop of [_discoverServiceCharacteristics]: the properties
    pushed for the flags of one characteristic. *)
Fixpoint propertiesLoop (allCharacteristics : list (string * string))
    (flags : list string) (properties : list string) : list string :=
  match allCharacteristics with
  | [] => properties
  | (characteristicName, mapped) :: rest =>
      let properties :=
        if existsb (String.eqb characteristicName) flags
        then properties ++ [mapped] else properties in
      propertiesLoop rest flags properties
  end.

Definition propertiesOf (flags : list string) : list string :=
  propertiesLoop characteristicMapping flags [].

(** [{ characteristic, readQueue: new AsyncQueue(), writeQueue: new
    AsyncQueue() }] around a handle that has no listener yet. *)
Definition newEntry : CacheEntry :=
  mkEntry [] AsyncQueue.newWorld AsyncQueue.newWorld.

(** The outer loop of [_discoverServiceCharacteristics] over the listed
    characteristic UUIDs, each with the flags the transport reports for it,
    [None] when [getCharacteristic] or [getFlags] is rejected, which
    rejects the whole function. *)
Fixpoint discoverLoop (characteristicUuids : list (string * option (list string)))
    (discoveredCharacteristics : list CharacteristicInfo)
    (characteristicCacheEntry : gmap string CacheEntry)
  : option (list CharacteristicInfo * gmap string CacheEntry) :=
  match characteristicUuids with
  | [] => Some (discoveredCharacteristics, characteristicCacheEntry)
  | (_, None) :: _ => None
  | (characteristicUuid, Some flags) :: rest =>
      let characteristicInfo := mkInfo (packUUID characteristicUuid) (propertiesOf flags) in
      discoverLoop rest
        (discoveredCharacteristics ++ [characteristicInfo])
        (<[characteristicUuid := newEntry]> characteristicCacheEntry)
  end.

(** [_discoverServiceCharacteristics]; the argument is the answer of
    [service.characteristics()] with the answers for each characteristic;
    the result is [None] when the promise is rejected. *)
Definition _discoverServiceCharacteristics
    (answer : option (list (string * option (list string))))
  : option (list CharacteristicInfo * gmap string CacheEntry) :=
  match answer with
  | None => None
  | Some characteristicUuids => discoverLoop characteristicUuids [] ∅
  end.

(** [_getPrimaryService]; [answer] is what [getPrimaryService] is fulfilled
    with when it is requested.  The result is the binding with what the
    returned promise settles to, [None] for a rejection. *)
Definition _getPrimaryService (st : NobleBindings) (deviceUuid serviceUuid : string)
    (answer : option nat) : Result (NobleBindings * option nat) :=
  match _device_by_uuid st !! deviceUuid with
  | None => Returned (st, None)
  | Some device =>
      match cachedServices device !! serviceUuid with
      | Some service => Returned (st, Some service)
      | None =>
          match gattServer device with
          | None => Threw TypeError
          | Some _ =>
              match answer with
              | None => Returned (st, None)
              | Some service =>
                  let device :=
                    setCachedServices (<[serviceUuid := service]> (cachedServices device))
                      device in
                  Returned
                    (withDevices (<[deviceUuid := device]> (_device_by_uuid st)) st,
                     Some service)
              end
          end
      end
  end.

(** What [discoverCharacteristics] returns to its caller. *)
Inductive Completion : Type :=
| ReturnsUndefined
| ReturnsRejectedPromise.

(** The callback that receives the discovered characteristics: the
    assignment into the characteristic cache raises a TypeError when the
    device has no such cache, which the [catch] after it only logs. *)
Definition onCharacteristics (st : NobleBindings) (deviceUuid serviceUuid : string)
    (discovered : list CharacteristicInfo * gmap string CacheEntry)
  : NobleBindings * list GattEvent :=
  match _device_by_uuid st !! deviceUuid with
  | None => (st, [])
  | Some device =>
      match cachedCharacteristics device with
      | None => (st, [])
      | Some cache =>
          let device :=
            setCachedCharacteristics
              (Some (<[unpackUUID serviceUuid := snd discovered]> cache)) device in
          (withDevices (<[deviceUuid := device]> (_device_by_uuid st)) st,
           [EvCharacteristicsDiscover deviceUuid serviceUuid (fst discovered)])
      end
  end.

Definition discoverCharacteristics (st : NobleBindings) (deviceUuid serviceUuid : string)
    (service : option nat) (characteristics : option (list (string * option (list string))))
  : Result (NobleBindings * list GattEvent * Completion) :=
  match _device_by_uuid st !! deviceUuid with
  | None => Returned (st, [], ReturnsRejectedPromise)
  | Some _ =>
      match _getPrimaryService st deviceUuid (unpackUUID serviceUuid) service with
      | Threw e => Threw e
      | Returned (st, None) => Returned (st, [], ReturnsUndefined)
      | Returned (st, Some _) =>
          match _discoverServiceCharacteristics characteristics with
          | None => Returned (st, [], ReturnsUndefined)
          | Some discovered =>
              let (st, events) := onCharacteristics st deviceUuid serviceUuid discovered in
              Returned (st, events, ReturnsUndefined)
          end
      end
  end.

(** The element of the [characteristicsDiscover] payload for a listed
    characteristic whose flags were reported. *)
Definition infoOf (p : string * option (list string)) : CharacteristicInfo :=
  mkInfo (packUUID (fst p)) (propertiesOf (default [] (snd p))).

(** Calls made one after the other: [n] reads of one characteristic, and
    the answers of [readValue()] to them arriving in order. *)
Fixpoint readEach (st : NobleBindings)
    (deviceUuid serviceUuid characteristicUuid : string) (n : nat)
  : Result NobleBindings :=
  match n with
  | 0 => Returned st
  | S n =>
      match read st deviceUuid serviceUuid characteristicUuid with
      | Threw e => Threw e
      | Returned st => readEach st deviceUuid serviceUuid characteristicUuid n
      end
  end.

Definition readSettledEach (st : NobleBindings)
    (deviceUuid serviceUuid characteristicUuid : string) (answers : list (option Data))
  : NobleBindings :=
  fold_left
    (fun st answer => readSettled st deviceUuid serviceUuid characteristicUuid answer)
    answers st.

(** The [read] events of a row of answers: one for each fulfilled
    [readValue()], none for a rejected one. *)
Definition readEvents (d s c : string) (answers : list (option Data)) : list Emitted :=
  flat_map
    (fun answer =>
       match answer with
       | Some data => [EvRead d s c data false]
       | None => []
       end)
    answers.

End Gatt.

(** ** More sample states *)
Module GattSamples.
Import Uuid Bindings Samples Gatt.

(** The device of the samples after a connect event and [discoverServices]:
    caches empty, GATT root present. *)
Definition rootedHub : Device :=
  mkDevice "dev_A" "AA:BB:CC:DD:EE:FF" "public" (Some []) false
    ∅ (Some ∅) None (Some [legoService]) (mkAdvertisement None [] []) (Some 1).

(** A device registered by discovery and connected while the transport
    already held the connection: no connect event, hence no characteristic
    cache, but a GATT root. *)
Definition eventlessHub : Device :=
  mkDevice "dev_A" "AA:BB:CC:DD:EE:FF" "public" (Some []) false
    ∅ None None (Some [legoService]) (mkAdvertisement None [] []) (Some 1).

Definition legoAnswer : option (list (string * option (list string))) :=
  Some [(legoCharacteristic, Some ["write-without-response"; "write"; "notify"])].

End GattSamples.

(** ** A scanning session

    A tick starts its fetches together and arms the timer again; each fetch
    settles later, on its own, possibly after further ticks and in any
    order.  A session is a sequence of such events. *)
Module Discovery.
Import Uuid Bindings Samples.
Local Open Scope list_scope.

(** The binding, the fetches that were started and have not settled yet,
    and every fetch started so far. *)
Record Scan : Type := mkScan {
  binding : NobleBindings;
  inflight : list string;
  fetches : list string
}.

Inductive ScanEvent : Type :=
| TimerFires (fired : nat) (devices : option (list string))
| FetchSettles (address : string) (answer : option DeviceAnswers).

(** Takes one fetch of the address out of those in flight, if there is
    one. *)
Fixpoint settleOne (address : string) (waiting : list string) : option (list string) :=
  match waiting with
  | [] => None
  | a :: rest =>
      if String.eqb a address then Some rest
      else option_map (cons a) (settleOne address rest)
  end.

Definition timesFetched (s : Scan) (address : string) : nat :=
  List.length (List.filter (String.eqb address) (fetches s)).

Section Session.

Variable serializeUUID : string -> string.

(** The tick up to the point where its fetches are under way: the [then]
    callback of [devices()] over the listing, then the [finally] callback.
    Returns the binding and the addresses a fetch was started for. *)
Definition tickStarts (st : NobleBindings) (fired : nat)
    (devices : option (list string)) : NobleBindings * list string :=
  let st :=
    mkBindings (_adapter st) (_device_by_uuid st) (_device_by_address st)
      (_serviceUuidFilterList st) (_discoveryProcessId st)
      (List.filter (fun t => negb (t =? fired)%nat) (timers st)) (nextTimer st)
      (emitted st) in
  let started :=
    match devices with
    | Some l => tickFetches serializeUUID st l
    | None => []
    end in
  (rearm st, started).

(** One fetch settling: the [then] callback of [_getAdvertisementData] on
    a device, the [catch] callback, which only logs, on a rejection. *)
Definition fetchSettles (st : NobleBindings) (address : string)
    (answer : option DeviceAnswers) : NobleBindings :=
  match answer with
  | Some a => onAdvertisementData st (serializeUUID address) (_getAdvertisementData a)
  | None => st
  end.

(** Only a fetch in flight can settle. *)
Definition scanStep (s : Scan) (ev : ScanEvent) : Scan :=
  match ev with
  | TimerFires fired devices =>
      let (st, started) := tickStarts (binding s) fired devices in
      mkScan st (inflight s ++ started) (fetches s ++ started)
  | FetchSettles address answer =>
      match settleOne address (inflight s) with
      | Some rest => mkScan (fetchSettles (binding s) address answer) rest (fetches s)
      | None => s
      end
  end.

Definition scanRun (evs : list ScanEvent) (s : Scan) : Scan := fold_left scanStep evs s.

End Session.

(** A later snapshot of address "A", which by then advertises the wanted
    service. *)
Definition lateSnapshot : DeviceAnswers :=
  mkAnswers (serialize "A") "A" "public" false None None (Some [legoService]).

Definition lateAnswer : option DeviceAnswers := Some lateSnapshot.

(** Two ticks list "A" before its first fetch has settled. *)
Definition slowFetch : list ScanEvent :=
  [ TimerFires 0 (Some ["A"]); TimerFires 1 (Some ["A"]);
    FetchSettles "A" (answersFor "A"); FetchSettles "A" lateAnswer ].

(** One tick lists "A", "B" and "C"; the fetches settle in another order. *)
Definition outOfOrder : list ScanEvent :=
  [ TimerFires 0 (Some ["A"; "B"; "C"]);
    FetchSettles "C" (answersFor "C"); FetchSettles "A" (answersFor "A");
    TimerFires 1 (Some ["A"; "B"; "C"]);
    FetchSettles "B" (answersFor "B"); FetchSettles "B" (answersFor "B") ].

End Discovery.

Module UuidFacts.
Import JsString Uuid.

Lemma toLowerCase_length s : String.length (toLowerCase s) = String.length s.
Proof. induction s as [|c r IH]; simpl; congruence. Qed.

Lemma append_cons c a b : String c a ++ b = String c (a ++ b).
Proof. reflexivity. Qed.

Lemma toLowerCase_app a b : toLowerCase (a ++ b) = toLowerCase a ++ toLowerCase b.
Proof.
  induction a as [|c r IH]; [reflexivity|].
  rewrite append_cons. simpl. now rewrite IH.
Qed.

Lemma hexValue_lower c d :
  hexValue c = Some d -> lowerCodeUnit c = hexDigit d.
Proof.
  destruct c as [[] [] [] [] [] [] [] []]; vm_compute;
    intros H; try discriminate H; injection H as <-; reflexivity.
Qed.

Lemma packUUID_digits x ds :
  digitsOf x = Some ds -> packUUID x = writeDigits ds.
Proof.
  unfold packUUID. revert ds.
  induction x as [|c r IH]; simpl; intros ds H.
  - now injection H as <-.
  - destruct (Ascii.eqb c "-"); [now apply IH|].
    destruct (hexValue c) as [d|] eqn:Hd; [|discriminate].
    destruct (digitsOf r) as [ds'|]; [|discriminate].
    injection H as <-. simpl.
    now rewrite (hexValue_lower _ _ Hd), (IH ds').
Qed.

Lemma writeDigits_length ds : String.length (writeDigits ds) = List.length ds.
Proof. induction ds; simpl; congruence. Qed.

Lemma hexDigit_lower d : lowerCodeUnit (hexDigit d) = hexDigit d.
Proof.
  unfold hexDigit.
  destruct (N.to_nat d) as [|[|[|[|[|[|[|[|[|[|[|[|[|[|[|[|n]]]]]]]]]]]]]]]];
    reflexivity.
Qed.

Lemma writeDigits_lower ds : toLowerCase (writeDigits ds) = writeDigits ds.
Proof.
  induction ds as [|d r IH]; simpl; [reflexivity|].
  now rewrite hexDigit_lower, IH.
Qed.

Lemma unpackUUID_by_length s : unpackUUID s = unpackByLength s.
Proof.
  unfold unpackUUID, unpackByLength.
  destruct (String.length s =? 32)%nat eqn:E; [|reflexivity].
  apply Nat.eqb_eq in E.
  do 32 (destruct s as [|? s]; [discriminate E|]).
  destruct s; [|discriminate E].
  reflexivity.
Qed.

Lemma unpackUUID_length s :
  String.length (unpackUUID s) =
  if (String.length s =? 32)%nat then 36 else String.length s.
Proof.
  unfold unpackUUID.
  destruct (String.length s =? 32)%nat eqn:E; [|apply toLowerCase_length].
  apply Nat.eqb_eq in E.
  do 32 (destruct s as [|? s]; [discriminate E|]).
  destruct s; [|discriminate E].
  reflexivity.
Qed.

Lemma unpackUUID_hyphens s :
  String.length s = 32 ->
  List.map (fun i => String.get i (unpackUUID s)) [8; 13; 18; 23] =
  [Some "-"%char; Some "-"%char; Some "-"%char; Some "-"%char].
Proof.
  intros E.
  do 32 (destruct s as [|? s]; [discriminate E|]).
  destruct s; [|discriminate E].
  reflexivity.
Qed.

Lemma join_cons2 sep a b r :
  join sep (a :: b :: r) = a ++ sep ++ join sep (b :: r).
Proof. reflexivity. Qed.

Lemma canonicalForm_lower ds : toLowerCase (canonicalForm ds) = canonicalForm ds.
Proof.
  unfold canonicalForm.
  generalize (groups [8; 4; 4; 4; 12] ds) as gs.
  induction gs as [|g [|g' gs] IH]; [reflexivity|apply writeDigits_lower|].
  change (List.map writeDigits (g :: g' :: gs))
    with (writeDigits g :: writeDigits g' :: List.map writeDigits gs).
  rewrite join_cons2, !toLowerCase_app, writeDigits_lower.
  f_equal. f_equal. exact IH.
Qed.

Lemma unpackUUID_digits ds :
  List.length ds = 32 -> unpackUUID (writeDigits ds) = canonicalForm ds.
Proof.
  intros E. rewrite <- canonicalForm_lower.
  do 32 (destruct ds as [|? ds]; [discriminate E|]).
  destruct ds; [|discriminate E].
  reflexivity.
Qed.

Lemma hexValue_bound c d : hexValue c = Some d -> (d < 16)%N.
Proof.
  destruct c as [[] [] [] [] [] [] [] []]; vm_compute;
    intros H; try discriminate H; injection H as <-; reflexivity.
Qed.

Lemma digitsOf_bound x : forall ds, digitsOf x = Some ds -> Forall (fun d => (d < 16)%N) ds.
Proof.
  induction x as [|c r IH]; simpl; intros ds H.
  - injection H as <-. constructor.
  - destruct (Ascii.eqb c "-"); [now apply IH|].
    destruct (hexValue c) as [d|] eqn:Hd; [|discriminate].
    destruct (digitsOf r) as [ds'|]; [|discriminate].
    injection H as <-. constructor; [now apply hexValue_bound with c|now apply IH].
Qed.

Lemma hexValue_hexDigit d : (d < 16)%N -> hexValue (hexDigit d) = Some d.
Proof.
  intros H.
  assert (In d (List.map N.of_nat (seq 0 16))) as Hin.
  { apply in_map_iff. exists (N.to_nat d). split; [lia|]. apply in_seq. lia. }
  simpl in Hin.
  repeat (destruct Hin as [<-|Hin]; [reflexivity|]). destruct Hin.
Qed.

Lemma digitsOf_app a : forall b da db,
  digitsOf a = Some da -> digitsOf b = Some db -> digitsOf (a ++ b) = Some (da ++ db)%list.
Proof.
  induction a as [|c r IH]; intros b da db Ha Hb.
  - simpl in Ha. injection Ha as <-. exact Hb.
  - rewrite append_cons. simpl in *.
    destruct (Ascii.eqb c "-"); [now apply IH|].
    destruct (hexValue c) as [d|]; [|discriminate].
    destruct (digitsOf r) as [ds'|]; [|discriminate].
    injection Ha as <-. now rewrite (IH b ds' db eq_refl Hb).
Qed.

Lemma digitsOf_writeDigits g :
  Forall (fun d => (d < 16)%N) g -> digitsOf (writeDigits g) = Some g.
Proof.
  induction 1 as [|d g Hd _ IH]; [reflexivity|].
  simpl. rewrite (hexValue_hexDigit d Hd), IH.
  assert (In d (List.map N.of_nat (seq 0 16))) as Hin.
  { apply in_map_iff. exists (N.to_nat d). split; [lia|]. apply in_seq. lia. }
  simpl in Hin.
  repeat (destruct Hin as [<-|Hin]; [reflexivity|]). destruct Hin.
Qed.

Lemma groups_concat sizes : forall ds,
  List.length ds <= list_sum sizes -> List.concat (groups sizes ds) = ds.
Proof.
  induction sizes as [|n r IH]; intros ds H; simpl in *.
  - destruct ds; [reflexivity|simpl in H; lia].
  - rewrite IH; [apply firstn_skipn|]. rewrite length_skipn. lia.
Qed.

Lemma groups_Forall (P : N -> Prop) sizes : forall ds,
  Forall P ds -> Forall (Forall P) (groups sizes ds).
Proof.
  induction sizes as [|n r IH]; intros ds H; simpl; constructor.
  - now apply Forall_take.
  - apply IH. now apply Forall_drop.
Qed.

Lemma digitsOf_join gs :
  Forall (Forall (fun d => (d < 16)%N)) gs ->
  digitsOf (join "-" (List.map writeDigits gs)) = Some (List.concat gs).
Proof.
  induction gs as [|g [|g' gs] IH]; intros H.
  - reflexivity.
  - simpl. rewrite app_nil_r. apply digitsOf_writeDigits. now inversion H.
  - change (List.map writeDigits (g :: g' :: gs))
      with (writeDigits g :: writeDigits g' :: List.map writeDigits gs).
    rewrite join_cons2. inversion H as [|? ? Hg Hr]; subst.
    change (List.concat (g :: g' :: gs)) with (g ++ List.concat (g' :: gs))%list.
    apply digitsOf_app; [now apply digitsOf_writeDigits|].
    change ("-" ++ join "-" (List.map writeDigits (g' :: gs)))
      with (String "-" (join "-" (List.map writeDigits (g' :: gs)))).
    simpl digitsOf at 1. now apply IH.
Qed.

(** The canonical text denotes the digits it was written from. *)
Lemma canonicalForm_digits ds :
  List.length ds = 32 -> Forall (fun d => (d < 16)%N) ds ->
  digitsOf (canonicalForm ds) = Some ds.
Proof.
  intros E H. unfold canonicalForm.
  rewrite digitsOf_join by now apply groups_Forall.
  f_equal. apply groups_concat. rewrite E. simpl. lia.
Qed.

(** C6: for every text [x] that, hyphens apart, consists of the 32
    hexadecimal digits [ds] in any casing, [unpackUUID (packUUID x)] is the
    canonical lowercase 8-4-4-4-12 text of [ds]; that text is in lower case
    and denotes the same digits. *)
Theorem unpack_pack_is_canonical (x : string) (ds : list N) :
  digitsOf x = Some ds -> List.length ds = 32 ->
  unpackUUID (packUUID x) = canonicalForm ds /\
  toLowerCase (canonicalForm ds) = canonicalForm ds /\
  digitsOf (canonicalForm ds) = Some ds /\
  String.length (canonicalForm ds) = 36.
Proof.
  intros Hx Hl.
  rewrite (packUUID_digits x ds Hx).
  pose proof (unpackUUID_digits ds Hl) as Hu.
  repeat split.
  - exact Hu.
  - apply canonicalForm_lower.
  - apply canonicalForm_digits; [exact Hl|now apply digitsOf_bound with x].
  - rewrite <- Hu, unpackUUID_length, writeDigits_length, Hl. reflexivity.
Qed.

Lemma unpack_pack_is_canonical_witness :
  unpackUUID (packUUID "00001623-1212-EFDE-1623-785feabcd123")
    = "00001623-1212-efde-1623-785feabcd123" /\
  unpackUUID (packUUID "00004F0E1212EFDE1523785FEABCD123")
    = "00004f0e-1212-efde-1523-785feabcd123".
Proof.
  split.
  - exact (proj1 (unpack_pack_is_canonical
                    "00001623-1212-EFDE-1623-785feabcd123"
                    [0;0;0;0;1;6;2;3;1;2;1;2;14;15;13;14;1;6;2;3;7;8;5;15;14;10;11;12;13;1;2;3]%N
                    eq_refl eq_refl)).
  - exact (proj1 (unpack_pack_is_canonical
                    "00004F0E1212EFDE1523785FEABCD123"
                    [0;0;0;0;4;15;0;14;1;2;1;2;14;15;13;14;1;5;2;3;7;8;5;15;14;10;11;12;13;1;2;3]%N
                    eq_refl eq_refl)).
Defined.

(** C10: [unpackUUID] looks at the length of its input and at nothing else.
    A string of exactly 32 code units, hexadecimal or not, comes back cut
    into groups of 8, 4, 4, 4 and 12 units joined by hyphens and put in
    lower case; any other string comes back in lower case and otherwise
    unchanged.  Two strings that are not UUIDs show both branches. *)
Theorem unpackUUID_decides_by_length (s : string) :
  unpackUUID s = unpackByLength s /\
  unpackUUID "Not a UUID, but 32 units long!!!" = "not a uu-id, -but -32 u-nits long!!!" /\
  unpackUUID "0000162312-12efde1623785feabcd123" = "0000162312-12efde1623785feabcd123".
Proof.
  split; [apply unpackUUID_by_length|].
  split; reflexivity.
Qed.

End UuidFacts.

Module AsyncQueueFacts.
Import AsyncQueue.

Example three_tasks :
  trace (run [Enqueue (Returns (Fulfils 7)); Enqueue (Returns (RejectsWith 1));
              Enqueue (ThrowsSync 2); Settle; Enqueue (Returns (Fulfils 9));
              Settle; Settle] newWorld)
  = [Started 0; Resolved 0 7; Started 1; Rejected 1 1; Started 2; Rejected 2 2;
     Started 3; Resolved 3 9].
Proof. reflexivity. Qed.

(** [dequeue] as queue.js writes it, calling itself from the [finally]
    block: the recursion on the backlog above is that function. *)
Lemma dequeue_equation w :
  dequeue w =
  if _pendingPromise (queue w) then w
  else
    match _getNextTask (queue w) with
    | (None, _) => w
    | (Some task, q) =>
        let w := setQueue q w in
        let w := setPending true w in
        let w := observe (Started (future task)) w in
        match action task with
        | ThrowsSync e => dequeue (onRejected task e w)
        | Returns _ => setAwaiting (Some task) w
        end
    end.
Proof.
  unfold dequeue, _getNextTask.
  destruct (_pendingPromise (queue w)) eqn:E; [reflexivity|].
  destruct (_tasks (queue w)) as [|task rest]; [reflexivity|].
  cbn. destruct (action task); reflexivity.
Qed.

Lemma serial_app a : forall k b,
  serial k (a ++ b) = (serial k a ++ serial (k + List.length a) b)%list.
Proof.
  induction a as [|x a IH]; intros k b; simpl.
  - now rewrite Nat.add_0_r.
  - now rewrite IH, Nat.add_succ_r.
Qed.

Lemma tasksFrom_app a : forall k b,
  tasksFrom k (a ++ b) = (tasksFrom k a ++ tasksFrom (k + List.length a) b)%list.
Proof.
  induction a as [|x a IH]; intros k b; simpl.
  - now rewrite Nat.add_0_r.
  - now rewrite IH, Nat.add_succ_r.
Qed.

Lemma tasksFrom_future acts : forall k,
  List.map future (tasksFrom k acts) = seq k (List.length acts).
Proof. induction acts as [|a r IH]; intros k; simpl; [|rewrite IH]; reflexivity. Qed.

Lemma starts_app a b : starts (a ++ b) = (starts a ++ starts b)%list.
Proof. induction a as [|[] a IH]; simpl; congruence. Qed.

Lemma completions_app a b : completions (a ++ b) = (completions a ++ completions b)%list.
Proof. induction a as [|[] a IH]; simpl; congruence. Qed.

Lemma settlements_app a b : settlements (a ++ b) = (settlements a ++ settlements b)%list.
Proof. induction a as [|[] a IH]; simpl; congruence. Qed.

Lemma verdict_cases k a :
  (exists v, verdict k a = Resolved k v) \/ (exists e, verdict k a = Rejected k e).
Proof. destruct a as [e|[v|e]]; simpl; eauto. Qed.

Lemma starts_serial acts : forall k, starts (serial k acts) = seq k (List.length acts).
Proof.
  induction acts as [|a r IH]; intros k; simpl; [reflexivity|].
  destruct (verdict_cases k a) as [[v ->]|[e ->]]; now rewrite IH.
Qed.

Lemma completions_serial acts : forall k,
  completions (serial k acts) = seq k (List.length acts).
Proof.
  induction acts as [|a r IH]; intros k; simpl; [reflexivity|].
  destruct (verdict_cases k a) as [[v ->]|[e ->]]; now rewrite IH.
Qed.

Lemma settlements_serial acts : forall k, settlements (serial k acts) = verdicts k acts.
Proof.
  induction acts as [|a r IH]; intros k; simpl; [reflexivity|].
  destruct (verdict_cases k a) as [[v Hv]|[e Hv]]; rewrite Hv, IH; reflexivity.
Qed.

Lemma update_round k a : update (update [] (Started k)) (verdict k a) = [].
Proof.
  destruct (verdict_cases k a) as [[v ->]|[e ->]]; simpl; now rewrite Nat.eqb_refl.
Qed.

Lemma executing_serial acts : forall k tl,
  fold_left update (serial k acts ++ tl) [] = fold_left update tl [].
Proof.
  induction acts as [|a r IH]; intros k tl; [reflexivity|].
  cbn [serial app fold_left]. rewrite update_round. apply IH.
Qed.

Lemma neverOverlap_serial acts : forall k tl,
  neverOverlap [] (serial k acts ++ tl) = neverOverlap [] tl.
Proof.
  induction acts as [|a r IH]; intros k tl; [reflexivity|].
  cbn [serial app neverOverlap]. rewrite update_round.
  cbn. apply IH.
Qed.

(** *** Every step keeps the queue on the serial execution *)

Lemma dequeueFrom_inv l : forall finished w,
  awaiting w = None ->
  queue w = mkQueue false (tasksFrom (List.length finished) l) ->
  promises w = List.length (finished ++ l) ->
  trace w = serial 0 finished ->
  Inv (finished ++ l) (dequeueFrom (tasksFrom (List.length finished) l) w).
Proof.
  induction l as [|a l IH]; intros finished w Ha Hq Hp Ht.
  - simpl. rewrite app_nil_r in *. now apply InvIdle.
  - cbn [tasksFrom dequeueFrom action future].
    destruct a as [e|o].
    + replace (finished ++ ThrowsSync e :: l)%list
        with ((finished ++ [ThrowsSync e]) ++ l)%list in * by now rewrite <- app_assoc.
      replace (S (List.length finished))
        with (List.length (finished ++ [ThrowsSync e])) by (rewrite length_app; simpl; lia).
      apply IH; cbn; try assumption; try reflexivity.
      rewrite Ht, serial_app. simpl. now rewrite <- app_assoc.
    + eapply InvBusy; cbn; try reflexivity; try assumption.
      now rewrite Ht.
Qed.

Lemma newWorld_inv : Inv [] newWorld.
Proof. now apply InvIdle. Qed.

Lemma enqueue_inv acts w a : Inv acts w -> Inv (acts ++ [a]) (fst (enqueue a w)).
Proof.
  intros [Ha Hq Hp Ht | finished o waiting -> Ha Hq Hp Ht];
    unfold enqueue, dequeue, setQueue, _addTask; cbn; rewrite Hq; cbn.
  - rewrite Hp.
    apply (dequeueFrom_inv [a] acts); cbn; try assumption; try reflexivity.
    now rewrite length_app, Nat.add_comm.
  - rewrite <- app_assoc. cbn.
    eapply InvBusy with (waiting := (waiting ++ [a])%list); cbn; try reflexivity; try assumption.
    + rewrite tasksFrom_app. cbn. rewrite Hp, length_app. cbn.
      now rewrite Nat.add_succ_r.
    + rewrite Hp, !length_app. cbn. rewrite length_app. cbn. lia.
Qed.

Lemma resume_inv acts w : Inv acts w -> Inv acts (resume w).
Proof.
  intros [Ha Hq Hp Ht | finished o waiting -> Ha Hq Hp Ht]; unfold resume; rewrite Ha.
  - now apply InvIdle.
  - cbn [action].
    replace (finished ++ Returns o :: waiting)%list
      with ((finished ++ [Returns o]) ++ waiting)%list in * by now rewrite <- app_assoc.
    assert (List.length (finished ++ [Returns o]) = S (List.length finished)) as Hl
      by (rewrite length_app; simpl; lia).
    destruct o as [v|e]; unfold dequeue; cbn; rewrite Hq; cbn; rewrite <- Hl;
      apply dequeueFrom_inv; cbn; try assumption; try reflexivity;
      solve [ now rewrite Hq, Hl
            | rewrite Ht, serial_app; cbn; now rewrite <- app_assoc ].
Qed.

Lemma run_app a b w : run (a ++ b) w = run b (run a w).
Proof. apply fold_left_app. Qed.

Lemma run_inv evs : forall acts w, Inv acts w -> Inv (acts ++ submitted evs) (run evs w).
Proof.
  induction evs as [|[a|] evs IH]; intros acts w H; cbn [run fold_left submitted].
  - now rewrite app_nil_r.
  - replace (acts ++ a :: submitted evs)%list with ((acts ++ [a]) ++ submitted evs)%list
      by now rewrite <- app_assoc.
    apply IH. now apply enqueue_inv.
  - apply IH. now apply resume_inv.
Qed.

Lemma reachable_inv evs : Inv (submitted evs) (run evs newWorld).
Proof. apply (run_inv evs [] newWorld newWorld_inv). Qed.

(** *** What an observer of a queue on the serial execution sees *)

Lemma executing_busy finished j :
  executing (serial 0 finished ++ [Started j]) = [j].
Proof. unfold executing. now rewrite executing_serial. Qed.

Lemma executing_idle acts : executing (serial 0 acts) = [].
Proof.
  unfold executing. rewrite <- (app_nil_r (serial 0 acts)).
  now rewrite executing_serial.
Qed.

Lemma inv_starts acts w :
  Inv acts w ->
  (starts (trace w) ++ List.map future (_tasks (queue w)))%list = seq 0 (List.length acts).
Proof.
  intros [Ha Hq Hp Ht | finished o waiting -> Ha Hq Hp Ht]; rewrite Ht, Hq; cbn.
  - now rewrite app_nil_r, starts_serial.
  - rewrite starts_app, starts_serial, tasksFrom_future, length_app. cbn.
    rewrite <- app_assoc. cbn.
    change (length finished :: seq (S (length finished)) (length waiting))
      with (seq (0 + length finished) (S (length waiting))).
    now rewrite <- seq_app.
Qed.

Lemma inv_completions acts w :
  Inv acts w ->
  (completions (trace w) ++ executing (trace w))%list = starts (trace w).
Proof.
  intros [Ha Hq Hp Ht | finished o waiting -> Ha Hq Hp Ht]; rewrite Ht.
  - now rewrite executing_idle, app_nil_r, completions_serial, starts_serial.
  - rewrite executing_busy, completions_app, starts_app.
    cbn. now rewrite app_nil_r, completions_serial, starts_serial.
Qed.

Lemma inv_neverOverlap acts w : Inv acts w -> neverOverlap [] (trace w) = true.
Proof.
  intros [Ha Hq Hp Ht | finished o waiting -> Ha Hq Hp Ht]; rewrite Ht.
  - rewrite <- (app_nil_r (serial 0 acts)). now rewrite neverOverlap_serial.
  - now rewrite neverOverlap_serial.
Qed.

Lemma inv_flag acts w :
  Inv acts w ->
  _pendingPromise (queue w) = (List.length (executing (trace w)) =? 1)%nat.
Proof.
  intros [Ha Hq Hp Ht | finished o waiting -> Ha Hq Hp Ht]; rewrite Ht, Hq.
  - now rewrite executing_idle.
  - now rewrite executing_busy.
Qed.

Lemma inv_backlog acts w :
  Inv acts w -> _pendingPromise (queue w) || (size (queue w) =? 0)%nat = true.
Proof. intros [Ha Hq Hp Ht | finished o waiting -> Ha Hq Hp Ht]; now rewrite Hq. Qed.

Lemma inv_settlements acts w :
  Inv acts w ->
  settlements (trace w) =
  verdicts 0 (firstn (List.length (completions (trace w))) acts).
Proof.
  intros [Ha Hq Hp Ht | finished o waiting -> Ha Hq Hp Ht]; rewrite Ht.
  - now rewrite completions_serial, length_seq, firstn_all, settlements_serial.
  - rewrite completions_app, settlements_app, completions_serial, settlements_serial.
    cbn. rewrite !app_nil_r, length_seq.
    now rewrite firstn_app, firstn_all, Nat.sub_diag, app_nil_r.
Qed.

Lemma inv_promise acts w a : Inv acts w -> snd (enqueue a w) = List.length acts.
Proof. intros [Ha Hq Hp Ht | finished o waiting -> Ha Hq Hp Ht]; exact Hp. Qed.

Lemma inv_enqueue_while_busy acts w a :
  Inv acts w ->
  if _pendingPromise (queue w)
  then trace (fst (enqueue a w)) = trace w /\
       _tasks (queue (fst (enqueue a w))) =
       (_tasks (queue w) ++ [mkTask a (List.length acts)])%list
  else True.
Proof.
  intros [Ha Hq Hp Ht | finished o waiting -> Ha Hq Hp Ht]; rewrite Hq; cbn; [exact I|].
  unfold enqueue, dequeue. cbn. rewrite Hq. cbn. now rewrite Hp.
Qed.

(** *** Draining: enough settlements run every enqueued action *)

Lemma dequeueFrom_extends l : forall w,
  exists ext, trace (dequeueFrom l w) = (trace w ++ ext)%list.
Proof.
  induction l as [|t l IH]; intros w; cbn [dequeueFrom].
  - exists []. now rewrite app_nil_r.
  - destruct (action t) as [e|o].
    + destruct (IH (onRejected t e
                      (observe (Started (future t)) (setQueue (mkQueue true l) w))))
        as [ext ->].
      cbn. rewrite <- !app_assoc. eauto.
    + cbn. eauto.
Qed.

Lemma resume_progress acts w :
  Inv acts w ->
  awaiting w = None \/
  S (List.length (completions (trace w))) <=
  List.length (completions (trace (resume w))).
Proof.
  intros [Ha Hq Hp Ht | finished o waiting -> Ha Hq Hp Ht]; [now left|right].
  unfold resume. rewrite Ha. cbn [action].
  destruct o as [v|e]; unfold dequeue; cbn;
    match goal with
    | |- context [dequeueFrom ?l ?w0] => destruct (dequeueFrom_extends l w0) as [ext ->]
    end; cbn; rewrite !completions_app, !length_app; cbn; lia.
Qed.

Lemma inv_busy_count acts w :
  Inv acts w -> List.length acts <= List.length (completions (trace w)) ->
  trace w = serial 0 acts /\ queue w = mkQueue false [] /\ awaiting w = None.
Proof.
  intros [Ha Hq Hp Ht | finished o waiting -> Ha Hq Hp Ht] Hc; [auto|].
  rewrite Ht, completions_app, completions_serial, !length_app, length_seq in Hc.
  cbn in Hc. lia.
Qed.

Lemma drain n : forall acts w,
  Inv acts w ->
  List.length acts <= n + List.length (completions (trace w)) ->
  let w' := run (repeat Settle n) w in
  trace w' = serial 0 acts /\ queue w' = mkQueue false [] /\ awaiting w' = None.
Proof.
  induction n as [|n IH]; intros acts w H Hc.
  - now apply inv_busy_count.
  - cbn [repeat run fold_left step]. apply IH; [now apply resume_inv|].
    destruct (resume_progress _ _ H) as [Hidle|Hp].
    + unfold resume. rewrite Hidle.
      destruct H as [Ha Hq Hp Ht | finished o waiting -> Ha Hq Hp Ht]; [|congruence].
      rewrite Ht, completions_serial, length_seq. lia.
    + lia.
Qed.

Lemma drained evs :
  let w' := run (evs ++ repeat Settle (List.length (submitted evs))) newWorld in
  trace w' = serial 0 (submitted evs) /\ queue w' = mkQueue false [] /\ awaiting w' = None.
Proof.
  cbn zeta. rewrite run_app. apply drain; [apply reachable_inv|lia].
Qed.

(** C2: whatever the schedule of enqueue calls and settlements, the actions
    are started in the order they were enqueued (promise numbers 0, 1, ...;
    what has not started is the backlog, in order), they complete in that
    same order with at most the last started one still executing, at no
    instant of the trace do two actions execute, the busy flag is set
    exactly when one action executes, a backlog exists only while it is
    set, an enqueue made while an action runs only extends the backlog, and
    once every action has settled all of them have run, in order, and the
    flag is clear. *)
Theorem queue_runs_one_task_at_a_time_in_order (evs : list Event) (a : Action) :
  let w := run evs newWorld in
  let n := List.length (submitted evs) in
  let w' := run (evs ++ repeat Settle n) newWorld in
  (starts (trace w) ++ List.map future (_tasks (queue w)))%list = seq 0 n /\
  (completions (trace w) ++ executing (trace w))%list = starts (trace w) /\
  neverOverlap [] (trace w) = true /\
  _pendingPromise (queue w) = (List.length (executing (trace w)) =? 1)%nat /\
  _pendingPromise (queue w) || (size (queue w) =? 0)%nat = true /\
  (if _pendingPromise (queue w)
   then trace (fst (enqueue a w)) = trace w /\
        _tasks (queue (fst (enqueue a w))) = (_tasks (queue w) ++ [mkTask a n])%list
   else True) /\
  starts (trace w') = seq 0 n /\
  completions (trace w') = seq 0 n /\
  neverOverlap [] (trace w') = true /\
  _pendingPromise (queue w') = false.
Proof.
  cbn zeta.
  pose proof (reachable_inv evs) as H.
  destruct (drained evs) as (Ht & Hq & _).
  repeat split.
  - exact (inv_starts _ _ H).
  - exact (inv_completions _ _ H).
  - exact (inv_neverOverlap _ _ H).
  - exact (inv_flag _ _ H).
  - exact (inv_backlog _ _ H).
  - exact (inv_enqueue_while_busy _ _ a H).
  - rewrite Ht. apply starts_serial.
  - rewrite Ht. apply completions_serial.
  - rewrite Ht, <- (app_nil_r (serial 0 (submitted evs))). now rewrite neverOverlap_serial.
  - now rewrite Hq.
Qed.

(** C3: whatever the schedule, the caller of the k-th [enqueue] holds
    promise number k, and the promises settled so far are those of the
    first enqueued actions, each settled by the outcome of its own action
    alone: a promise is rejected exactly when its own action throws or
    rejects, whatever happened to the actions before it.  The failure path
    clears the busy flag, and once every action has settled, each enqueued
    action has been started and its promise settled by its own verdict,
    failed predecessors or not. *)
Theorem a_failed_task_rejects_only_its_own_promise (evs : list Event)
    (a : Action) (task : Task) (e : nat) (w0 : World) :
  let w := run evs newWorld in
  let acts := submitted evs in
  let w' := run (evs ++ repeat Settle (List.length acts)) newWorld in
  snd (enqueue a w) = List.length acts /\
  settlements (trace w) =
    verdicts 0 (firstn (List.length (completions (trace w))) acts) /\
  _pendingPromise (queue (onRejected task e w0)) = false /\
  trace (onRejected task e w0) = (trace w0 ++ [Rejected (future task) e])%list /\
  settlements (trace w') = verdicts 0 acts /\
  starts (trace w') = seq 0 (List.length acts) /\
  _pendingPromise (queue w') = false /\
  _tasks (queue w') = [].
Proof.
  cbn zeta.
  destruct (drained evs) as (Ht & Hq & _).
  repeat split.
  - exact (inv_promise _ _ a (reachable_inv evs)).
  - exact (inv_settlements _ _ (reachable_inv evs)).
  - rewrite Ht. apply settlements_serial.
  - rewrite Ht. apply starts_serial.
  - now rewrite Hq.
  - now rewrite Hq.
Qed.

End AsyncQueueFacts.

Module BindingsFacts.
Import JsString Uuid Bindings Samples.
Local Open Scope list_scope.

(** *** Looking up a characteristic *)

Lemma getCharacteristic_unknown_device st d s c :
  _device_by_uuid st !! d = None -> _getCharacteristic st d s c = Returned None.
Proof. intros H. unfold _getCharacteristic. now rewrite H. Qed.

Lemma getCharacteristic_cached st d s c device cache entries :
  _device_by_uuid st !! d = Some device ->
  cachedCharacteristics device = Some cache ->
  cache !! unpackUUID s = Some entries ->
  _getCharacteristic st d s c = Returned (entries !! unpackUUID c).
Proof.
  intros Hd Hc Hs. unfold _getCharacteristic. rewrite Hd, Hc. cbn. now rewrite Hs.
Qed.

Lemma getCharacteristic_undiscovered st d s c device :
  _device_by_uuid st !! d = Some device ->
  match cachedCharacteristics device with
  | None => True
  | Some cache => cache !! unpackUUID s = None
  end ->
  _getCharacteristic st d s c = Threw TypeError.
Proof.
  intros Hd Hc. unfold _getCharacteristic. rewrite Hd.
  destruct (cachedCharacteristics device) as [cache|]; [|reflexivity].
  cbn. now rewrite Hc.
Qed.

(** Where the lookup does find nothing, the three calls change nothing. *)
Lemma nothing_cached_is_a_no_op st d s c data withoutResponse enable answered :
  _getCharacteristic st d s c = Returned None ->
  read st d s c = Returned st /\
  write st d s c data withoutResponse = Returned st /\
  notify st d s c enable answered = Returned st.
Proof. intros H. unfold read, write, notify. now rewrite H. Qed.

(** C1, where the code departs from it: for a registered device whose
    characteristic cache does not exist yet, or holds nothing for the
    service asked for, the lookup raises a TypeError, and [read], [write]
    and [notify] end with that error in place of returning quietly.  In the
    second case the cache key of the service is not the name of a property
    of [Object.prototype], for which an empty cache has an answer too. *)
Theorem read_write_notify_throw_on_undiscovered_service
    st d s c device data withoutResponse enable answered :
  _device_by_uuid st !! d = Some device ->
  match cachedCharacteristics device with
  | None => True
  | Some cache =>
      cache !! unpackUUID s = None /\ JsObject.inherited (unpackUUID s) = false
  end ->
  read st d s c = Threw TypeError /\
  write st d s c data withoutResponse = Threw TypeError /\
  notify st d s c enable answered = Threw TypeError.
Proof.
  intros Hd Hc. unfold read, write, notify.
  rewrite (getCharacteristic_undiscovered st d s c device Hd); [easy|].
  destruct (cachedCharacteristics device); [apply Hc|exact I].
Qed.

Lemma read_write_notify_throw_on_undiscovered_service_witness :
  read (bindingsWith hub) "dev_A" "000016231212efde1623785feabcd123"
    "000016241212efde1623785feabcd123" = Threw TypeError /\
  read (bindingsWith seenHub) "dev_A" "000016231212efde1623785feabcd123"
    "000016241212efde1623785feabcd123" = Threw TypeError.
Proof.
  split.
  - refine (proj1 (read_write_notify_throw_on_undiscovered_service
                     (bindingsWith hub) "dev_A" _ _ hub [] false true true _ _)).
    + reflexivity.
    + split; reflexivity.
  - refine (proj1 (read_write_notify_throw_on_undiscovered_service
                     (bindingsWith seenHub) "dev_A" _ _ seenHub [] false true true _ _)).
    + reflexivity.
    + exact I.
Defined.

(** *** Scanning *)

(** C7, where the code departs from it: a successful [stopScanning] emits
    [scanStop], forgets the timer and disarms it, and assigns an empty
    object to [_device_by_address]; the registry [_device_by_uuid] is left
    as it was. *)
Theorem stopScanning_leaves_the_registry st :
  _adapter st = true ->
  exists st',
    stopScanning st (Some true) true = Returned st' /\
    emitted st' = emitted st ++ [EvScanStop] /\
    _discoveryProcessId st' = None /\
    (match _discoveryProcessId st with
     | Some id => ~ In id (timers st')
     | None => timers st' = timers st
     end) /\
    _device_by_address st' = Some ∅ /\
    _device_by_uuid st' = _device_by_uuid st.
Proof.
  intros Ha. unfold stopScanning. rewrite Ha. cbn.
  destruct (_discoveryProcessId st) as [id|] eqn:E; eexists; (split; [reflexivity|]); cbn.
  - repeat split; try reflexivity.
    intros Hin. apply filter_In in Hin. destruct Hin as [_ Hin].
    now rewrite Nat.eqb_refl in Hin.
  - now rewrite E.
Qed.

Lemma stopScanning_leaves_the_registry_witness :
  exists st',
    stopScanning scanning (Some true) true = Returned st' /\
    timers st' = [] /\
    _device_by_uuid st' !! "dev_A" = Some seenHub.
Proof.
  destruct (stopScanning_leaves_the_registry scanning eq_refl)
    as (st' & Hrun & _ & _ & _ & _ & Hreg).
  exists st'. split; [exact Hrun|]. split.
  - vm_compute in Hrun. injection Hrun as <-. reflexivity.
  - rewrite Hreg. reflexivity.
Defined.

Lemma mapPack_strings l : mapPack (List.map JString l) = Returned (List.map packUUID l).
Proof. induction l as [|s l IH]; cbn; [|rewrite IH]; reflexivity. Qed.

(** C9, where the code departs from it: a single UUID and a list of UUIDs,
    bare or in the [services] property, are normalised to the list of
    packed UUIDs; with the filter omitted (no argument, or an object
    without [services]) the normalisation raises a TypeError and the call
    ends before any request to the transport. *)
Theorem startScanning_without_services_throws st discovering started s l :
  normalizeOptions (JString s) = Returned [packUUID s] /\
  normalizeOptions (JObject (JString s)) = Returned [packUUID s] /\
  normalizeOptions (JArray (List.map JString l)) = Returned (List.map packUUID l) /\
  normalizeOptions (JObject (JArray (List.map JString l))) = Returned (List.map packUUID l) /\
  normalizeOptions JUndefined = Threw TypeError /\
  normalizeOptions (JObject JUndefined) = Threw TypeError /\
  startScanning st JUndefined discovering started = Threw TypeError /\
  startScanning st (JObject JUndefined) discovering started = Threw TypeError.
Proof.
  repeat split; try reflexivity; cbn; apply mapPack_strings.
Qed.

(** *** The discovery filter *)

Lemma wantedLoop_existsb f adv idx : forall found,
  wantedLoop f adv idx found =
  found || existsb (fun i => indexOfFound f (nth_error adv i)) idx.
Proof.
  induction idx as [|i idx IH]; intros found; cbn.
  - now rewrite orb_false_r.
  - destruct found; cbn; [reflexivity|].
    destruct (indexOfFound f (nth_error adv i)); cbn; [reflexivity|].
    now rewrite IH.
Qed.

Lemma existsb_positions (g : option string -> bool) adv : forall pre,
  existsb (fun i => g (nth_error (pre ++ adv) i)) (seq (List.length pre) (List.length adv))
  = existsb (fun u => g (Some u)) adv.
Proof.
  induction adv as [|x adv IH]; intros pre; cbn; [reflexivity|].
  rewrite nth_error_app2, Nat.sub_diag by lia. cbn. f_equal.
  specialize (IH (pre ++ [x])).
  rewrite <- app_assoc, length_app in IH. cbn in IH.
  now rewrite Nat.add_1_r in IH.
Qed.

Lemma getAdvertisementData_uuids a :
  (serviceUuids (_getAdvertisementData a) = None /\
   adv_serviceUuids (advertisement (_getAdvertisementData a)) = []) \/
  (exists raw,
     serviceUuids (_getAdvertisementData a) = Some raw /\
     adv_serviceUuids (advertisement (_getAdvertisementData a)) = List.map packUUID raw).
Proof.
  destruct a as [dv ad ty pa [nm|] [sd|] [raw|]]; cbn; eauto.
Qed.

(** On every device the decoder builds, the filter of the code is the
    filter of the specification. *)
Lemma wanted_is_filterPasses st a :
  _isAdvertisingWantedCriteria st (_getAdvertisementData a)
  = filterPasses (_serviceUuidFilterList st) (_getAdvertisementData a).
Proof.
  unfold _isAdvertisingWantedCriteria, filterPasses.
  destruct (_serviceUuidFilterList st) as [|f0 fl]; [reflexivity|].
  cbn [List.length Nat.eqb].
  rewrite wantedLoop_existsb. cbn [orb].
  destruct (getAdvertisementData_uuids a) as [[-> ->]|(raw & -> & ->)]; [reflexivity|].
  rewrite <- (length_map packUUID raw).
  apply (existsb_positions (indexOfFound (f0 :: fl)) (List.map packUUID raw) []).
Qed.

Lemma filterPasses_spec f device :
  filterPasses f device = true <->
  f = [] \/ exists u, In u (adv_serviceUuids (advertisement device)) /\ In u f.
Proof.
  unfold filterPasses. destruct f as [|f0 fl].
  - split; [now left|reflexivity].
  - rewrite existsb_exists. split.
    + intros (u & Hu & Hf). right. exists u. split; [exact Hu|].
      apply existsb_exists in Hf. destruct Hf as (v & Hv & E).
      apply String.eqb_eq in E. now subst.
    + intros [H|(u & Hu & Hf)]; [discriminate|].
      exists u. split; [exact Hu|]. apply existsb_exists.
      exists u. split; [exact Hf|apply String.eqb_refl].
Qed.

(** *** One fetched device *)


Lemma onAdvertisementData_seen st k device :
  _device_by_uuid st !! k <> None ->
  emitted (onAdvertisementData st k device) = emitted st.
Proof.
  intros H. unfold onAdvertisementData.
  destruct (_isAdvertisingWantedCriteria st device); [|reflexivity].
  destruct (_device_by_uuid st !! k); [reflexivity|congruence].
Qed.

(** *** One tick *)

Lemma tickFetches_In (serializeUUID : string -> string) st devices a :
  In a (tickFetches serializeUUID st devices) <->
  In a devices /\ _device_by_uuid st !! serializeUUID a = None.
Proof.
  unfold tickFetches. rewrite filter_In.
  destruct (_device_by_uuid st !! serializeUUID a); intuition congruence.
Qed.

(** *** Listeners *)

Lemma listeners_on_same name l h : listeners name (on name l h) = listeners name h ++ [l].
Proof.
  unfold listeners, on. rewrite List.filter_app, List.map_app. cbn.
  now rewrite String.eqb_refl.
Qed.

Lemma listeners_on_other name name' l h :
  String.eqb name' name = false -> listeners name (on name' l h) = listeners name h.
Proof.
  intros E. unfold listeners, on. rewrite List.filter_app, List.map_app. cbn.
  rewrite E. cbn. now rewrite app_nil_r.
Qed.

Lemma listeners_removeAll name h : listeners name (removeAllListeners name h) = [].
Proof.
  unfold listeners, removeAllListeners.
  induction h as [|[n l] h IH]; cbn; [reflexivity|].
  destruct (String.eqb n name) eqn:E; cbn; [exact IH|]. now rewrite E.
Qed.

Lemma connectEach_listeners answers : forall st deviceUuid device h,
  _device_by_uuid st !! deviceUuid = Some device ->
  bleDevice device = Some h ->
  exists st' device' h',
    connectEach st deviceUuid answers = Returned st' /\
    _device_by_uuid st' !! deviceUuid = Some device' /\
    bleDevice device' = Some h' /\
    listeners "connect" h'
    = listeners "connect" h ++ repeat OnConnectBound (List.length answers) /\
    listeners "disconnect" h'
    = listeners "disconnect" h ++ repeat OnDisconnectBound (List.length answers).
Proof.
  induction answers as [|connected answers IH]; intros st deviceUuid device h Hd Hb.
  - exists st, device, h. cbn. now rewrite !app_nil_r.
  - cbn [connectEach]. unfold connect. rewrite Hd, Hb.
    set (h2 := on "disconnect" OnDisconnectBound (on "connect" OnConnectBound h)).
    set (m := <[deviceUuid := setBleDevice (Some h2) device]> (_device_by_uuid st)).
    assert (listeners "connect" h2 = listeners "connect" h ++ [OnConnectBound]) as Hc.
    { unfold h2. rewrite listeners_on_other by reflexivity. apply listeners_on_same. }
    assert (listeners "disconnect" h2 = listeners "disconnect" h ++ [OnDisconnectBound])
      as Hdc.
    { unfold h2. rewrite listeners_on_same. f_equal.
      now apply listeners_on_other. }
    assert (forall st1, _device_by_uuid st1 = m ->
              exists st' device' h',
                connectEach st1 deviceUuid answers = Returned st' /\
                _device_by_uuid st' !! deviceUuid = Some device' /\
                bleDevice device' = Some h' /\
                listeners "connect" h'
                = listeners "connect" h ++ repeat OnConnectBound (S (List.length answers)) /\
                listeners "disconnect" h'
                = listeners "disconnect" h
                  ++ repeat OnDisconnectBound (S (List.length answers))) as Hgo.
    { intros st1 E.
      destruct (IH st1 deviceUuid (setBleDevice (Some h2) device) h2)
        as (st' & device' & h' & Hrun & Hl & Hb' & Hc' & Hd').
      - rewrite E. unfold m. apply lookup_insert_eq.
      - reflexivity.
      - exists st', device', h'. repeat split; try assumption.
        + rewrite Hc', Hc, <- app_assoc. reflexivity.
        + rewrite Hd', Hdc, <- app_assoc. reflexivity. }
    destruct connected; apply Hgo; reflexivity.
Qed.

Lemma fire_onConnect key e n : forall st device,
  deviceUuid e = Some key ->
  _device_by_uuid st !! key = Some device ->
  emitted (fold_left (fun st l => callListener st l e) (repeat OnConnectBound n) st)
  = emitted st ++ repeat (EvConnect (Some key)) n.
Proof.
  induction n as [|n IH]; intros st device He Hd; cbn [repeat fold_left].
  - now rewrite app_nil_r.
  - cbn [callListener]. unfold onConnect. rewrite He. cbn [propertyKey]. rewrite Hd.
    erewrite IH; [|exact He|cbn; apply lookup_insert_eq].
    cbn. now rewrite <- app_assoc.
Qed.

Lemma fire_onDisconnect key e n : forall st device,
  deviceUuid e = Some key ->
  _device_by_uuid st !! key = Some device ->
  emitted (fold_left (fun st l => callListener st l e) (repeat OnDisconnectBound n) st)
  = emitted st ++ repeat (EvDisconnect (Some key)) n.
Proof.
  induction n as [|n IH]; intros st device He Hd; cbn [repeat fold_left].
  - now rewrite app_nil_r.
  - cbn [callListener]. unfold onDisconnect. rewrite He. cbn [propertyKey]. rewrite Hd.
    erewrite IH; [|exact He|cbn; apply lookup_insert_eq].
    cbn. now rewrite <- app_assoc.
Qed.

(** C5 as the code has it: every [connect] call on a registered device
    with a live handle binds one more connect listener and one more
    disconnect listener; after [n] calls on a handle that had none, the
    handle carries [n] of each, and one transport connect (disconnect)
    event for the device is relayed as [n] connect (disconnect) events. *)
Theorem each_connect_binds_one_more_pair st key device h answers data :
  _device_by_uuid st !! key = Some device ->
  bleDevice device = Some h ->
  listeners "connect" h = [] ->
  listeners "disconnect" h = [] ->
  exists st' device' h',
    connectEach st key answers = Returned st' /\
    _device_by_uuid st' !! key = Some device' /\
    bleDevice device' = Some h' /\
    listenerCount "connect" h' = List.length answers /\
    listenerCount "disconnect" h' = List.length answers /\
    emitted (deviceFires st' key "connect" (mkEvent (Some key) data))
    = emitted st' ++ repeat (EvConnect (Some key)) (List.length answers) /\
    emitted (deviceFires st' key "disconnect" (mkEvent (Some key) data))
    = emitted st' ++ repeat (EvDisconnect (Some key)) (List.length answers).
Proof.
  intros Hd Hb Hc0 Hd0.
  destruct (connectEach_listeners answers st key device h Hd Hb)
    as (st' & device' & h' & Hrun & Hl & Hb' & Hc & Hdc).
  rewrite Hc0 in Hc. rewrite Hd0 in Hdc. cbn in Hc, Hdc.
  exists st', device', h'. repeat split; try assumption.
  - unfold listenerCount. now rewrite Hc, repeat_length.
  - unfold listenerCount. now rewrite Hdc, repeat_length.
  - unfold deviceFires, fire. rewrite Hl, Hb', Hc.
    now apply fire_onConnect with device'.
  - unfold deviceFires, fire. rewrite Hl, Hb', Hdc.
    now apply fire_onDisconnect with device'.
Qed.

Lemma each_connect_binds_one_more_pair_witness :
  exists st' device' h',
    connectEach (bindingsWith seenHub) "dev_A" [false; false; true] = Returned st' /\
    _device_by_uuid st' !! "dev_A" = Some device' /\
    bleDevice device' = Some h' /\
    listenerCount "connect" h' = 3.
Proof.
  destruct (each_connect_binds_one_more_pair
              (bindingsWith seenHub) "dev_A" seenHub [] [false; false; true] []
              eq_refl eq_refl eq_refl eq_refl)
    as (st' & device' & h' & Hrun & Hl & Hb & Hc & _).
  exists st', device', h'. repeat split; assumption.
Defined.

(** C5 as stated fails: two [connect] calls leave two connect listeners on
    the handle, and one transport connect event is relayed twice. *)
Lemma connect_twice_binds_twice :
  exists st',
    connectEach (bindingsWith seenHub) "dev_A" [false; false] = Returned st' /\
    ~ boundOnce st' "dev_A" /\
    emitted (deviceFires st' "dev_A" "connect" (mkEvent (Some "dev_A") []))
    = [EvConnect (Some "dev_A"); EvConnect (Some "dev_A")].
Proof.
  eexists. split; [reflexivity|]. split; [|reflexivity].
  intros (device & h & Hl & Hb & Hc & _).
  vm_compute in Hl. injection Hl as <-.
  vm_compute in Hb. injection Hb as <-.
  vm_compute in Hc. lia.
Qed.

(** *** Value-change listeners *)

Lemma getCharacteristic_storeEntry st d s c entry0 entry :
  _getCharacteristic st d s c = Returned (Some entry0) ->
  _getCharacteristic (storeEntry st d s c entry) d s c = Returned (Some entry).
Proof.
  unfold _getCharacteristic, storeEntry.
  destruct (_device_by_uuid st !! d) as [device|] eqn:Hd; [|discriminate].
  destruct (cachedCharacteristics device) as [cache|] eqn:Hc; [|discriminate].
  cbn. destruct (cache !! unpackUUID s) as [entries|] eqn:Hs; [|discriminate].
  intros _. cbn. rewrite lookup_insert_eq. cbn.
  rewrite lookup_insert_eq. now rewrite lookup_insert_eq.
Qed.

Lemma getCharacteristic_emit st d s c e :
  _getCharacteristic (emit e st) d s c = _getCharacteristic st d s c.
Proof. reflexivity. Qed.

Lemma notifyEach_listeners d s c answers : forall st entry,
  _getCharacteristic st d s c = Returned (Some entry) ->
  exists st' entry',
    notifyEach st d s c answers = Returned st' /\
    _getCharacteristic st' d s c = Returned (Some entry') /\
    listeners "valuechanged" (characteristic entry')
    = listeners "valuechanged" (characteristic entry)
      ++ repeat (ForwardNotify d s c) (List.length answers).
Proof.
  induction answers as [|answered answers IH]; intros st entry Hg.
  - exists st, entry. cbn. now rewrite app_nil_r.
  - cbn [notifyEach]. unfold notify. rewrite Hg.
    set (entry1 := mkEntry _ _ _).
    pose proof (getCharacteristic_storeEntry st d s c entry entry1 Hg) as Hg1.
    assert (forall st1,
              _getCharacteristic st1 d s c = Returned (Some entry1) ->
              exists st' entry',
                notifyEach st1 d s c answers = Returned st' /\
                _getCharacteristic st' d s c = Returned (Some entry') /\
                listeners "valuechanged" (characteristic entry')
                = listeners "valuechanged" (characteristic entry)
                  ++ repeat (ForwardNotify d s c) (S (List.length answers))) as Hgo.
    { intros st1 H1.
      destruct (IH st1 entry1 H1) as (st' & entry' & Hrun & Hg' & Hl).
      exists st', entry'. repeat split; try assumption.
      rewrite Hl. unfold entry1. cbn [characteristic].
      rewrite listeners_on_same, <- app_assoc. reflexivity. }
    destruct answered; apply Hgo; [rewrite getCharacteristic_emit|]; exact Hg1.
Qed.

Lemma fire_onNotify d s c e n : forall st,
  emitted (fold_left (fun st l => callListener st l e) (repeat (ForwardNotify d s c) n) st)
  = emitted st ++ repeat (EvRead d s c (value e) true) n.
Proof.
  induction n as [|n IH]; intros st; cbn [repeat fold_left].
  - now rewrite app_nil_r.
  - rewrite IH. cbn. now rewrite <- app_assoc.
Qed.

(** C4 as the code has it: every enabling [notify] call on a cached
    characteristic attaches one more value-change listener and removes
    none; after [n] calls on a handle that had none, the handle carries [n]
    of them and one value change is forwarded as [n] [read] events with the
    notification flag set.  A disabling call leaves no value-change
    listener. *)
Theorem each_enabling_notify_adds_one_listener st d s c entry answers data answered :
  _getCharacteristic st d s c = Returned (Some entry) ->
  listeners "valuechanged" (characteristic entry) = [] ->
  exists st' entry' st'' entry'',
    notifyEach st d s c answers = Returned st' /\
    _getCharacteristic st' d s c = Returned (Some entry') /\
    listenerCount "valuechanged" (characteristic entry') = List.length answers /\
    emitted (characteristicFires st' d s c "valuechanged" (mkEvent None data))
    = emitted st' ++ repeat (EvRead d s c data true) (List.length answers) /\
    notify st' d s c false answered = Returned st'' /\
    _getCharacteristic st'' d s c = Returned (Some entry'') /\
    listenerCount "valuechanged" (characteristic entry'') = 0.
Proof.
  intros Hg H0.
  destruct (notifyEach_listeners d s c answers st entry Hg) as (st' & entry' & Hrun & Hg' & Hl).
  rewrite H0 in Hl. cbn in Hl.
  set (entry2 := mkEntry (removeAllListeners "valuechanged" (characteristic entry'))
                   (readQueue entry') (writeQueue entry')).
  pose proof (getCharacteristic_storeEntry st' d s c entry' entry2 Hg') as Hg2.
  exists st', entry'.
  exists (if answered then emit (EvNotify d s c false) (storeEntry st' d s c entry2)
          else storeEntry st' d s c entry2), entry2.
  repeat split; try assumption.
  - unfold listenerCount. now rewrite Hl, repeat_length.
  - unfold characteristicFires, fire. rewrite Hg', Hl. apply fire_onNotify.
  - unfold notify. rewrite Hg'. now destruct answered.
  - destruct answered; [rewrite getCharacteristic_emit|]; exact Hg2.
  - unfold listenerCount, entry2. cbn [characteristic]. now rewrite listeners_removeAll.
Qed.

Lemma each_enabling_notify_adds_one_listener_witness :
  exists st' entry',
    notifyEach (bindingsWith exploredHub) "dev_A" "000016231212efde1623785feabcd123"
      "000016241212efde1623785feabcd123" [true; true; true] = Returned st' /\
    _getCharacteristic st' "dev_A" "000016231212efde1623785feabcd123"
      "000016241212efde1623785feabcd123" = Returned (Some entry') /\
    listenerCount "valuechanged" (characteristic entry') = 3.
Proof.
  destruct (each_enabling_notify_adds_one_listener
              (bindingsWith exploredHub) "dev_A" "000016231212efde1623785feabcd123"
              "000016241212efde1623785feabcd123" freshEntry [true; true; true] [] true
              eq_refl eq_refl)
    as (st' & entry' & _ & _ & Hrun & Hg & Hc & _).
  exists st', entry'. repeat split; assumption.
Defined.

(** C4 as stated fails: two enabling [notify] calls leave two value-change
    listeners on the handle, and one value change is forwarded as two
    [read] events. *)
Lemma notify_twice_subscribes_twice :
  exists st',
    notifyEach (bindingsWith exploredHub) "dev_A" "000016231212efde1623785feabcd123"
      "000016241212efde1623785feabcd123" [true; true] = Returned st' /\
    ~ subscribedOnce st' "dev_A" "000016231212efde1623785feabcd123"
        "000016241212efde1623785feabcd123" /\
    emitted (characteristicFires st' "dev_A" "000016231212efde1623785feabcd123"
               "000016241212efde1623785feabcd123" "valuechanged" (mkEvent None [7%N]))
    = [EvNotify "dev_A" "000016231212efde1623785feabcd123"
         "000016241212efde1623785feabcd123" true;
       EvNotify "dev_A" "000016231212efde1623785feabcd123"
         "000016241212efde1623785feabcd123" true;
       EvRead "dev_A" "000016231212efde1623785feabcd123"
         "000016241212efde1623785feabcd123" [7%N] true;
       EvRead "dev_A" "000016231212efde1623785feabcd123"
         "000016241212efde1623785feabcd123" [7%N] true].
Proof.
  eexists. split; [reflexivity|]. split; [|reflexivity].
  intros (entry & Hg & Hc & _).
  vm_compute in Hg. injection Hg as <-.
  vm_compute in Hc. discriminate Hc.
Qed.

End BindingsFacts.

(** ** Further properties of the codec *)
Module CodecExtras.
Import JsString Uuid UuidFacts.

Lemma lowerCodeUnit_again c : lowerCodeUnit (lowerCodeUnit c) = lowerCodeUnit c.
Proof. destruct c as [[] [] [] [] [] [] [] []]; reflexivity. Qed.

Lemma toLowerCase_again s : toLowerCase (toLowerCase s) = toLowerCase s.
Proof.
  induction s as [|c r IH]; simpl; [reflexivity|].
  now rewrite lowerCodeUnit_again, IH.
Qed.

(** Lower-casing neither makes nor unmakes a hyphen. *)
Lemma lowerCodeUnit_hyphen c :
  Ascii.eqb (lowerCodeUnit c) "-" = Ascii.eqb c "-".
Proof. destruct c as [[] [] [] [] [] [] [] []]; reflexivity. Qed.

Lemma removeHyphens_lower s :
  removeHyphens (toLowerCase s) = toLowerCase (removeHyphens s).
Proof.
  induction s as [|c r IH]; simpl; [reflexivity|].
  rewrite lowerCodeUnit_hyphen.
  destruct (Ascii.eqb c "-"); simpl; now rewrite IH.
Qed.

Lemma removeHyphens_again s : removeHyphens (removeHyphens s) = removeHyphens s.
Proof.
  induction s as [|c r IH]; simpl; [reflexivity|].
  destruct (Ascii.eqb c "-") eqn:E; simpl; [exact IH|]. now rewrite E, IH.
Qed.

Lemma removeHyphens_app a b :
  removeHyphens (a ++ b) = removeHyphens a ++ removeHyphens b.
Proof.
  induction a as [|c r IH]; [reflexivity|].
  rewrite append_cons. simpl.
  destruct (Ascii.eqb c "-"); [exact IH|]. now rewrite append_cons, IH.
Qed.

Lemma substring_all n : forall s, String.length s <= n -> substring 0 n s = s.
Proof.
  induction n as [|n IH]; intros [|c r] H; simpl in *; try reflexivity; try lia.
  now rewrite IH by lia.
Qed.

Lemma substring_split n : forall s,
  substring 0 n s ++ substring n (String.length s - n) s = s.
Proof.
  induction n as [|n IH]; intros s.
  - destruct s as [|c r]; [reflexivity|].
    cbn [substring String.length Nat.sub]. change ("" ++ ?x) with x.
    change (String c (substring 0 (String.length r) r) = String c r).
    now rewrite substring_all.
  - destruct s as [|c r]; [reflexivity|].
    cbn [substring String.length Nat.sub]. rewrite append_cons. now rewrite IH.
Qed.

Lemma substring_rest_length n s :
  String.length (substring n (String.length s - n) s) = String.length s - n.
Proof.
  revert s. induction n as [|n IH]; intros s.
  - rewrite Nat.sub_0_r, substring_all; lia.
  - destruct s as [|c r]; [reflexivity|]. cbn [substring String.length Nat.sub]. apply IH.
Qed.

Lemma removeHyphens_splitGroups sizes : forall s,
  String.length s <= list_sum sizes ->
  removeHyphens (join "-" (splitGroups sizes s)) = removeHyphens s.
Proof.
  induction sizes as [|n [|m r] IH]; intros s H.
  - destruct s; [reflexivity|simpl in H; lia].
  - cbn [splitGroups join String.concat]. simpl in H.
    now rewrite substring_all by lia.
  - change (splitGroups (n :: m :: r) s)
      with (substring 0 n s :: splitGroups (m :: r) (substring n (String.length s - n) s)).
    remember (m :: r) as sizes' eqn:Es.
    assert (exists g gs, splitGroups sizes' (substring n (String.length s - n) s) = g :: gs)
      as (g & gs & Eg) by (subst sizes'; cbn; eauto).
    rewrite Eg, join_cons2, <- Eg.
    rewrite !removeHyphens_app, IH.
    + change (removeHyphens "-") with "".
      change ("" ++ ?x) with x.
      rewrite <- removeHyphens_app. now rewrite substring_split.
    + rewrite substring_rest_length. unfold list_sum in *. simpl in H. lia.
Qed.

(** X1: for every string of code units U+0000..U+00FF (the strings of
    the model, on which [toLowerCase] works unit by unit), packing what
    [unpackUUID] returns is packing the input; packing twice is packing
    once, and a packed string has no hyphen left. *)
Theorem packUUID_absorbs_unpackUUID (s : string) :
  packUUID (unpackUUID s) = packUUID s /\
  packUUID (packUUID s) = packUUID s /\
  removeHyphens (packUUID s) = packUUID s.
Proof.
  assert (forall t, packUUID (toLowerCase t) = packUUID t) as Hl.
  { intros t. unfold packUUID. now rewrite removeHyphens_lower, toLowerCase_again. }
  assert (removeHyphens (packUUID s) = packUUID s) as Hr.
  { unfold packUUID. now rewrite removeHyphens_lower, removeHyphens_again. }
  repeat split.
  - rewrite unpackUUID_by_length. unfold unpackByLength.
    destruct (String.length s =? 32)%nat eqn:E; rewrite Hl; [|reflexivity].
    apply Nat.eqb_eq in E. unfold packUUID.
    rewrite removeHyphens_splitGroups; [reflexivity|]. rewrite E. simpl. lia.
  - unfold packUUID at 1. fold (packUUID s). rewrite Hr.
    unfold packUUID. apply toLowerCase_again.
  - exact Hr.
Qed.

Lemma unpackUUID_again (s : string) : unpackUUID (unpackUUID s) = unpackUUID s.
Proof.
  pose proof (unpackUUID_length s) as Hlen.
  unfold unpackUUID at 1.
  destruct (String.length s =? 32)%nat eqn:E.
  - rewrite Hlen. cbn [Nat.eqb].
    unfold unpackUUID. rewrite E. apply toLowerCase_again.
  - rewrite Hlen, E.
    unfold unpackUUID. rewrite E. apply toLowerCase_again.
Qed.

(** X2: for every string of code units U+0000..U+00FF (the strings of
    the model, on which [toLowerCase] works unit by unit), unpacking twice
    is unpacking once; the result of unpacking is in lower case. *)
Theorem unpackUUID_idempotent (s : string) :
  unpackUUID (unpackUUID s) = unpackUUID s /\
  toLowerCase (unpackUUID s) = unpackUUID s.
Proof.
  split; [apply unpackUUID_again|].
  unfold unpackUUID. destruct (String.length s =? 32)%nat; apply toLowerCase_again.
Qed.

Lemma hexDigit_not_hyphen d : Ascii.eqb (hexDigit d) "-" = false.
Proof.
  unfold hexDigit.
  destruct (N.to_nat d) as [|[|[|[|[|[|[|[|[|[|[|[|[|[|[|[|n]]]]]]]]]]]]]]]];
    reflexivity.
Qed.

Lemma removeHyphens_writeDigits ds : removeHyphens (writeDigits ds) = writeDigits ds.
Proof.
  induction ds as [|d r IH]; simpl; [reflexivity|].
  now rewrite hexDigit_not_hyphen, IH.
Qed.

Lemma writeDigits_app a b : writeDigits (a ++ b) = writeDigits a ++ writeDigits b.
Proof.
  induction a as [|d r IH]; [reflexivity|].
  cbn [writeDigits app]. now rewrite append_cons, IH.
Qed.

Lemma removeHyphens_join_digits gs :
  removeHyphens (join "-" (List.map writeDigits gs)) = writeDigits (List.concat gs).
Proof.
  induction gs as [|g [|g' gs] IH].
  - reflexivity.
  - cbn. rewrite app_nil_r. apply removeHyphens_writeDigits.
  - change (List.map writeDigits (g :: g' :: gs))
      with (writeDigits g :: writeDigits g' :: List.map writeDigits gs).
    rewrite join_cons2.
    change (writeDigits g' :: List.map writeDigits gs)
      with (List.map writeDigits (g' :: gs)).
    rewrite !removeHyphens_app, IH, removeHyphens_writeDigits.
    change (removeHyphens "-") with "". change ("" ++ ?x) with x.
    change (List.concat (g :: g' :: gs)) with (g ++ List.concat (g' :: gs))%list.
    now rewrite writeDigits_app.
Qed.

(** X3: a UUID written in the hyphenated layout, in any casing, and its
    packed form unpack to the same text, the canonical one: the two ways
    of naming a service or characteristic reach the same cache key. *)
Theorem hyphenated_and_packed_agree (x : string) (ds : list N) :
  List.length ds = 32 ->
  toLowerCase x = canonicalForm ds ->
  packUUID x = writeDigits ds /\
  unpackUUID x = canonicalForm ds /\
  unpackUUID (packUUID x) = unpackUUID x.
Proof.
  intros Hl Hx.
  assert (packUUID x = writeDigits ds) as Hp.
  { unfold packUUID. rewrite <- removeHyphens_lower, Hx.
    unfold canonicalForm. rewrite removeHyphens_join_digits.
    rewrite groups_concat; [reflexivity|]. rewrite Hl. simpl. lia. }
  assert (unpackUUID x = canonicalForm ds) as Hu.
  { assert (String.length x = 36) as H36.
    { rewrite <- toLowerCase_length, Hx, <- (unpackUUID_digits ds Hl).
      rewrite unpackUUID_length, writeDigits_length, Hl. reflexivity. }
    unfold unpackUUID. rewrite H36. exact Hx. }
  repeat split; [exact Hp|exact Hu|].
  rewrite Hp, Hu. now apply unpackUUID_digits.
Qed.

Lemma hyphenated_and_packed_agree_witness :
  unpackUUID "00001624-1212-EFDE-1623-785FEABCD123"
  = unpackUUID (packUUID "00001624-1212-EFDE-1623-785FEABCD123").
Proof.
  symmetry.
  exact (proj2 (proj2 (hyphenated_and_packed_agree
                         "00001624-1212-EFDE-1623-785FEABCD123"
                         [0;0;0;0;1;6;2;4;1;2;1;2;14;15;13;14;1;6;2;3;7;8;5;15;14;10;11;12;13;1;2;3]%N
                         eq_refl eq_refl))).
Defined.

End CodecExtras.

(** ** Further properties of the operation queue *)
Module QueueExtras.
Import AsyncQueue AsyncQueueFacts.

(** X4: whatever the schedule, [size()] is the number of actions enqueued
    and not yet started: the running action is not counted. *)
Theorem size_counts_the_waiting_actions (evs : list Event) :
  let w := run evs newWorld in
  size (queue w) + List.length (starts (trace w)) = List.length (submitted evs).
Proof.
  cbn zeta. pose proof (inv_starts _ _ (reachable_inv evs)) as H.
  apply (f_equal (@List.length nat)) in H.
  rewrite length_app, length_map, length_seq in H. unfold size. lia.
Qed.

(** X5: in every state a queue can reach, a call of [dequeue()] from
    outside changes nothing (it finds the queue busy, or the backlog
    empty), and so does a settlement when nothing is running. *)
Theorem dequeue_from_outside_changes_nothing (evs : list Event) :
  let w := run evs newWorld in
  dequeue w = w /\
  (if _pendingPromise (queue w) then True else resume w = w).
Proof.
  cbn zeta.
  destruct (reachable_inv evs) as [Ha Hq Hp Ht | finished o waiting E Ha Hq Hp Ht].
  - unfold dequeue, resume. rewrite Hq, Ha. cbn. auto.
  - unfold dequeue. rewrite Hq. cbn. auto.
Qed.

(** X6: on an idle queue [enqueue] calls the action before it returns: the
    action is started under the promise handed back, the queue is left busy
    when the action returned something to await, and when the action threw
    its promise is rejected at once and the queue is idle again. *)
Theorem enqueue_on_idle_queue_starts_at_once (evs : list Event) (a : Action) :
  let w := run evs newWorld in
  let n := List.length (submitted evs) in
  if _pendingPromise (queue w) then True
  else
    trace (fst (enqueue a w)) =
      (trace w ++ Started n ::
         match a with
         | ThrowsSync e => [Rejected n e]
         | Returns _ => []
         end)%list /\
    _pendingPromise (queue (fst (enqueue a w))) =
      match a with
      | ThrowsSync _ => false
      | Returns _ => true
      end /\
    _tasks (queue (fst (enqueue a w))) = [].
Proof.
  cbn zeta.
  destruct (reachable_inv evs) as [Ha Hq Hp Ht | finished o waiting E Ha Hq Hp Ht];
    rewrite Hq; cbn; [|exact I].
  unfold enqueue, dequeue. cbn. rewrite Hq. cbn. rewrite Hp.
  destruct a as [e|o]; cbn; rewrite <- ?app_assoc; auto.
Qed.

End QueueExtras.

(** ** Further properties of scanning and discovery *)
Module ScanExtras.
Import JsString Uuid Bindings Samples Gatt BindingsFacts.
Local Open Scope list_scope.

(** X7: while [init] has not received the adapter, [startScanning] and
    [stopScanning] end with a TypeError whatever their arguments and the
    transport's answers; once [init] has succeeded, [startScanning] with a
    list of UUIDs returns. *)
Theorem scanning_needs_the_adapter st options discovering started stopped l :
  _adapter st = false ->
  startScanning st options discovering started = Threw TypeError /\
  stopScanning st discovering stopped = Threw TypeError /\
  exists st',
    startScanning (fst (init st true)) (JArray (List.map JString l)) discovering started
    = Returned st'.
Proof.
  intros H. unfold startScanning, stopScanning. rewrite H. cbn.
  repeat split.
  - destruct (normalizeOptions options) as [services|[]]; reflexivity.
  - rewrite mapPack_strings.
    destruct discovering as [[]|]; [eauto| |eauto].
    destruct started; [|eauto].
    destruct (_discoveryProcessId st); cbn; eauto.
Qed.

Lemma scanning_needs_the_adapter_witness :
  startScanning new (JArray [JString legoService]) (Some false) true = Threw TypeError /\
  stopScanning new (Some true) true = Threw TypeError.
Proof.
  destruct (scanning_needs_the_adapter new (JArray [JString legoService])
              (Some false) true true [] eq_refl) as (H1 & _ & _).
  destruct (scanning_needs_the_adapter new JUndefined (Some true) true true [] eq_refl)
    as (_ & H2 & _).
  split; [exact H1|exact H2].
Defined.

(** X8: from a binding with the adapter and no timer, a successful
    [startScanning] with a list of UUIDs records the packed list as the
    filter and arms one timer; a successful [stopScanning] after it emits
    [scanStop] after [scanStart], leaves no timer armed or recorded, and
    keeps the filter and the registry. *)
Theorem start_then_stop_leaves_no_timer st l :
  _adapter st = true ->
  _discoveryProcessId st = None ->
  timers st = [] ->
  exists st1 st2,
    startScanning st (JArray (List.map JString l)) (Some false) true = Returned st1 /\
    _serviceUuidFilterList st1 = List.map packUUID l /\
    _discoveryProcessId st1 = Some (nextTimer st) /\
    timers st1 = [nextTimer st] /\
    stopScanning st1 (Some true) true = Returned st2 /\
    _discoveryProcessId st2 = None /\
    timers st2 = [] /\
    emitted st2 = emitted st ++ [EvScanStart; EvScanStop] /\
    _serviceUuidFilterList st2 = List.map packUUID l /\
    _device_by_uuid st2 = _device_by_uuid st.
Proof.
  intros Ha Hp Ht.
  unfold startScanning. cbn. rewrite mapPack_strings, Ha. cbn. rewrite Hp. cbn.
  eexists. eexists. split; [reflexivity|]. cbn.
  unfold stopScanning. cbn. rewrite Ha, Ht. cbn.
  do 3 (split; [reflexivity|]). split; [reflexivity|]. cbn.
  rewrite Nat.eqb_refl. cbn. rewrite <- app_assoc. repeat split.
Qed.

Lemma start_then_stop_leaves_no_timer_witness :
  exists st1 st2,
    startScanning (bindingsWith seenHub) (JArray [JString legoService]) (Some false) true
    = Returned st1 /\
    stopScanning st1 (Some true) true = Returned st2 /\
    timers st2 = [] /\
    emitted st2 = [EvScanStart; EvScanStop].
Proof.
  destruct (start_then_stop_leaves_no_timer (bindingsWith seenHub) [legoService]
              eq_refl eq_refl eq_refl)
    as (st1 & st2 & H1 & _ & _ & _ & H2 & _ & Ht & He & _).
  exists st1, st2. repeat split; assumption.
Defined.

(** The last statement of the callback is unconditional: whatever was
    registered under the key is replaced. *)
Lemma onAdvertisementData_registry st k device :
  _device_by_uuid (onAdvertisementData st k device)
  = <[k := registered st device]> (_device_by_uuid st) /\
  _serviceUuidFilterList (onAdvertisementData st k device) = _serviceUuidFilterList st /\
  exists more, emitted (onAdvertisementData st k device) = emitted st ++ more.
Proof.
  unfold onAdvertisementData, registered.
  destruct (_isAdvertisingWantedCriteria st device); cbn.
  - destruct (_device_by_uuid st !! k); cbn.
    + repeat split. exists []. now rewrite app_nil_r.
    + rewrite insert_insert_eq. repeat split. eauto.
  - repeat split. exists []. now rewrite app_nil_r.
Qed.

Section TickExtras.

Variable serializeUUID : string -> string.
Variable fetch : string -> option DeviceAnswers.

Lemma fetched_registry st a :
  (forall k, k <> serializeUUID a ->
     _device_by_uuid (fetched serializeUUID fetch st a) !! k = _device_by_uuid st !! k) /\
  (fetch a <> None ->
     _device_by_uuid (fetched serializeUUID fetch st a) !! serializeUUID a <> None) /\
  (forall k, _device_by_uuid st !! k <> None ->
     _device_by_uuid (fetched serializeUUID fetch st a) !! k <> None) /\
  _serviceUuidFilterList (fetched serializeUUID fetch st a) = _serviceUuidFilterList st /\
  exists more, emitted (fetched serializeUUID fetch st a) = emitted st ++ more.
Proof.
  unfold fetched. destruct (fetch a) as [ans|].
  - destruct (onAdvertisementData_registry st (serializeUUID a) (_getAdvertisementData ans))
      as (Hr & Hf & He).
    rewrite Hr. repeat split; try assumption.
    + intros k Hk. now rewrite lookup_insert_ne.
    + intros _. now rewrite lookup_insert_eq.
    + intros k Hk. destruct (decide (serializeUUID a = k)) as [<-|Hne].
      * now rewrite lookup_insert_eq.
      * now rewrite lookup_insert_ne.
  - repeat split; try tauto. exists []. now rewrite app_nil_r.
Qed.

Lemma fetched_all_keeps l : forall st k d,
  _device_by_uuid st !! k = Some d ->
  (forall a, In a l -> serializeUUID a <> k) ->
  _device_by_uuid (fold_left (fetched serializeUUID fetch) l st) !! k = Some d.
Proof.
  induction l as [|a l IH]; intros st k d Hk Hl; [exact Hk|].
  cbn [fold_left]. apply IH.
  - destruct (fetched_registry st a) as (Ho & _). rewrite Ho; [exact Hk|].
    intros E. apply (Hl a); [now left|now symmetry].
  - intros b Hb. apply Hl. now right.
Qed.

Lemma fetched_all_monotone l : forall st k,
  _device_by_uuid st !! k <> None ->
  _device_by_uuid (fold_left (fetched serializeUUID fetch) l st) !! k <> None.
Proof.
  induction l as [|a l IH]; intros st k Hk; [exact Hk|].
  cbn [fold_left]. apply IH.
  destruct (fetched_registry st a) as (_ & _ & Hm & _). now apply Hm.
Qed.

Lemma fetched_all_registers l : forall st a,
  In a l -> fetch a <> None ->
  _device_by_uuid (fold_left (fetched serializeUUID fetch) l st) !! serializeUUID a <> None.
Proof.
  induction l as [|b l IH]; intros st a Hin Hf; [destruct Hin|].
  cbn [fold_left]. destruct Hin as [<-|Hin].
  - apply fetched_all_monotone.
    destruct (fetched_registry st b) as (_ & Hs & _). now apply Hs.
  - now apply IH.
Qed.

Lemma fetched_all_emits l : forall st,
  _serviceUuidFilterList (fold_left (fetched serializeUUID fetch) l st)
  = _serviceUuidFilterList st /\
  exists more,
    emitted (fold_left (fetched serializeUUID fetch) l st) = emitted st ++ more.
Proof.
  induction l as [|a l IH]; intros st; cbn [fold_left].
  - split; [reflexivity|]. exists []. now rewrite app_nil_r.
  - destruct (IH (fetched serializeUUID fetch st a)) as (Hf & more & He).
    destruct (fetched_registry st a) as (_ & _ & _ & Hf1 & more1 & He1).
    split; [congruence|]. exists (more1 ++ more). now rewrite He, He1, <- app_assoc.
Qed.

End TickExtras.

Lemma rearm_keeps st :
  _device_by_uuid (rearm st) = _device_by_uuid st /\
  emitted (rearm st) = emitted st /\
  _serviceUuidFilterList (rearm st) = _serviceUuidFilterList st.
Proof. unfold rearm. destruct (_discoveryProcessId st); cbn; auto. Qed.

(** X9: a tick never touches a device that is already registered: whatever
    the listing and the answers, the device (with its handle, listeners and
    caches) is the same after the tick; nor does a tick change the filter
    or anything emitted before it. *)
Theorem tick_keeps_registered_devices
    (serializeUUID : string -> string) (fetch : string -> option DeviceAnswers)
    (st : NobleBindings) (fired : nat) (devices : option (list string))
    (k : string) (d : Device) :
  _device_by_uuid st !! k = Some d ->
  let st' := _onScanningDurationElapsed serializeUUID st fired devices fetch in
  _device_by_uuid st' !! k = Some d /\
  _serviceUuidFilterList st' = _serviceUuidFilterList st /\
  exists more, emitted st' = emitted st ++ more.
Proof.
  intros Hk. cbn zeta. unfold _onScanningDurationElapsed.
  set (st0 := mkBindings _ _ _ _ _ _ _ _).
  set (started := match devices with Some l => tickFetches serializeUUID st0 l | None => [] end).
  destruct (rearm_keeps st0) as (Hr & He & Hf). cbn in Hr, He, Hf.
  destruct (fetched_all_emits serializeUUID fetch started (rearm st0)) as (Hf' & more & He').
  split; [|split; [congruence|exists more; congruence]].
  apply fetched_all_keeps; [now rewrite Hr|].
  intros a Ha E. unfold started in Ha. destruct devices as [l|]; [|destruct Ha].
  apply tickFetches_In in Ha. destruct Ha as [_ Ha]. cbn in Ha. congruence.
Qed.

Lemma tick_keeps_registered_devices_witness :
  _device_by_uuid
    (_onScanningDurationElapsed serialize (bindingsWith exploredHub) 0
       (Some ["A"; "B"]) answersFor) !! "dev_A"
  = Some exploredHub.
Proof.
  exact (proj1 (tick_keeps_registered_devices serialize answersFor
                  (bindingsWith exploredHub) 0 (Some ["A"; "B"]) "dev_A" exploredHub
                  eq_refl)).
Defined.

Lemma filter_none {A} (f : A -> bool) l :
  (forall a, In a l -> f a = false) -> List.filter f l = [].
Proof.
  induction l as [|a l IH]; intros H; cbn; [reflexivity|].
  rewrite (H a) by now left. apply IH. intros b Hb. apply H. now right.
Qed.

(** X10: after a tick in which every fetch was answered, a tick over the
    same listing starts no fetch, emits nothing and leaves the registry as
    it is, whatever the transport would answer this time. *)
Theorem a_second_tick_over_the_same_listing_is_quiet
    (serializeUUID : string -> string) (fetch fetch' : string -> option DeviceAnswers)
    (st : NobleBindings) (fired fired' : nat) (devices : list string) :
  (forall a, In a devices -> fetch a <> None) ->
  let st1 := _onScanningDurationElapsed serializeUUID st fired (Some devices) fetch in
  let st2 := _onScanningDurationElapsed serializeUUID st1 fired' (Some devices) fetch' in
  tickFetches serializeUUID st1 devices = [] /\
  emitted st2 = emitted st1 /\
  _device_by_uuid st2 = _device_by_uuid st1.
Proof.
  intros Hf. cbn zeta.
  assert (tickFetches serializeUUID
            (_onScanningDurationElapsed serializeUUID st fired (Some devices) fetch)
            devices = []) as Hnone.
  { unfold tickFetches at 1. apply filter_none. intros a Ha.
    match goal with |- match ?x with _ => _ end = _ => destruct x eqn:E end;
      [reflexivity|exfalso].
    revert E. unfold _onScanningDurationElapsed.
    set (st0 := mkBindings _ _ _ _ _ _ _ _).
    destruct (rearm_keeps st0) as (Hr & _). cbn in Hr.
    destruct (_device_by_uuid st !! serializeUUID a) eqn:Hreg.
    - apply fetched_all_monotone. rewrite Hr, Hreg. discriminate.
    - apply fetched_all_registers; [|now apply Hf].
      apply tickFetches_In. cbn. auto. }
  split; [exact Hnone|].
  set (st1 := _onScanningDurationElapsed serializeUUID st fired (Some devices) fetch) in *.
  unfold _onScanningDurationElapsed.
  set (st0 := mkBindings _ _ _ _ _ _ _ _).
  change (tickFetches serializeUUID st0 devices) with (tickFetches serializeUUID st1 devices).
  rewrite Hnone. cbn [fold_left].
  destruct (rearm_keeps st0) as (Hr & He & _). cbn in Hr, He. auto.
Qed.

Lemma a_second_tick_over_the_same_listing_is_quiet_witness :
  emitted
    (_onScanningDurationElapsed serialize
       (_onScanningDurationElapsed serialize filtering 0 (Some ["A"; "B"; "C"]) answersFor)
       1 (Some ["A"; "B"; "C"]) answersFor)
  = emitted
      (_onScanningDurationElapsed serialize filtering 0 (Some ["A"; "B"; "C"]) answersFor).
Proof.
  refine (proj1 (proj2 (a_second_tick_over_the_same_listing_is_quiet
                          serialize answersFor answersFor filtering 0 1
                          ["A"; "B"; "C"] _))).
  intros a _. unfold answersFor. discriminate.
Defined.

End ScanExtras.

(** ** Properties of connection handling and GATT discovery *)
Module GattFacts.
Import JsString Uuid Bindings Samples Gatt GattSamples BindingsFacts ScanExtras.
Local Open Scope list_scope.

(** X11: a device that failed the filter is registered without its live
    handle, so [connect], [disconnect] and [discoverServices] on its key
    end with a TypeError, whatever the transport would answer. *)
Theorem a_filtered_out_device_cannot_be_used st k device connected gatt services :
  _isAdvertisingWantedCriteria st device = false ->
  let st' := onAdvertisementData st k device in
  connect st' k connected = Threw TypeError /\
  disconnect st' k connected = Threw TypeError /\
  discoverServices st' k gatt services = Threw TypeError.
Proof.
  intros Hw. cbn zeta.
  destruct (onAdvertisementData_registry st k device) as (Hr & _).
  unfold registered in Hr. rewrite Hw in Hr.
  unfold connect, disconnect, discoverServices.
  rewrite Hr, lookup_insert_eq. cbn. auto.
Qed.

Lemma a_filtered_out_device_cannot_be_used_witness :
  connect
    (onAdvertisementData filtering "dev_A"
       (_getAdvertisementData
          (mkAnswers "dev_A" "A" "public" false None None (Some []))))
    "dev_A" false
  = Threw TypeError.
Proof.
  exact (proj1 (a_filtered_out_device_cannot_be_used filtering "dev_A"
                  (_getAdvertisementData
                     (mkAnswers "dev_A" "A" "public" false None None (Some [])))
                  false None None eq_refl)).
Defined.

(** *** The flags of a characteristic *)

Lemma propertiesLoop_filter flags all : forall acc,
  propertiesLoop all flags acc
  = acc ++ List.map snd
             (List.filter (fun entry => existsb (String.eqb (fst entry)) flags) all).
Proof.
  induction all as [|[name mapped] all IH]; intros acc; cbn.
  - now rewrite app_nil_r.
  - rewrite IH. destruct (existsb (String.eqb name) flags); cbn; [|reflexivity].
    now rewrite <- app_assoc.
Qed.

Lemma existsb_eqb_In x l : existsb (String.eqb x) l = true <-> In x l.
Proof.
  rewrite existsb_exists. split.
  - intros (y & Hy & E). apply String.eqb_eq in E. now subst.
  - intros H. exists x. split; [exact H|apply String.eqb_refl].
Qed.

Lemma existsb_eqb_same x l l' :
  (forall f, In f l <-> In f l') ->
  existsb (String.eqb x) l = existsb (String.eqb x) l'.
Proof.
  intros H. apply eq_true_iff_eq. rewrite !existsb_eqb_In. apply H.
Qed.

Lemma propertiesOf_same flags flags' :
  (forall f, In f flags <-> In f flags') -> propertiesOf flags = propertiesOf flags'.
Proof.
  intros H. unfold propertiesOf. rewrite !propertiesLoop_filter.
  do 2 f_equal. apply List.filter_ext. intros entry. now apply existsb_eqb_same.
Qed.

Lemma propertiesOf_cases flags :
  propertiesOf flags
  = (if existsb (String.eqb "read") flags then ["read"] else [])
    ++ (if existsb (String.eqb "write-without-response") flags
        then ["writeWithoutResponse"] else [])
    ++ (if existsb (String.eqb "write") flags then ["write"] else [])
    ++ (if existsb (String.eqb "notify") flags then ["notify"] else []).
Proof.
  unfold propertiesOf, characteristicMapping. cbn [propertiesLoop].
  destruct (existsb (String.eqb "read") flags),
           (existsb (String.eqb "write-without-response") flags),
           (existsb (String.eqb "write") flags),
           (existsb (String.eqb "notify") flags); reflexivity.
Qed.

(** X12: the properties reported for a characteristic are the noble names
    of the flags that are in the table, each once, in the order of the
    table whatever the order of the flags; flags outside the table are
    dropped, and repeating or reordering the flags changes nothing. *)
Theorem properties_follow_the_table (flags : list string) (p : string) :
  propertiesOf flags
    = List.map snd
        (List.filter (fun entry => existsb (String.eqb (fst entry)) flags)
           characteristicMapping) /\
  (In p (propertiesOf flags) <->
   exists f, In f flags /\ In (f, p) characteristicMapping) /\
  List.NoDup (propertiesOf flags) /\
  sublist (propertiesOf flags) ["read"; "writeWithoutResponse"; "write"; "notify"] /\
  propertiesOf (rev flags) = propertiesOf flags /\
  propertiesOf (flags ++ flags) = propertiesOf flags.
Proof.
  assert (propertiesOf flags
          = List.map snd
              (List.filter (fun entry => existsb (String.eqb (fst entry)) flags)
                 characteristicMapping)) as E.
  { unfold propertiesOf. now rewrite propertiesLoop_filter. }
  split; [exact E|]. split; [|split; [|split; [|split]]].
  - rewrite E, in_map_iff. split.
    + intros ([f q] & <- & Hin). apply filter_In in Hin. destruct Hin as [Hin Hf].
      exists f. split; [now apply existsb_eqb_In|exact Hin].
    + intros (f & Hf & Hin). exists (f, p). split; [reflexivity|].
      apply filter_In. split; [exact Hin|]. now apply existsb_eqb_In.
  - rewrite propertiesOf_cases.
    destruct (existsb (String.eqb "read") flags),
             (existsb (String.eqb "write-without-response") flags),
             (existsb (String.eqb "write") flags),
             (existsb (String.eqb "notify") flags); cbn [app];
      repeat (apply List.NoDup_cons; [cbn [In]; intuition discriminate|]);
      apply List.NoDup_nil.
  - rewrite propertiesOf_cases.
    destruct (existsb (String.eqb "read") flags),
             (existsb (String.eqb "write-without-response") flags),
             (existsb (String.eqb "write") flags),
             (existsb (String.eqb "notify") flags); cbn [app];
      repeat first [apply sublist_nil_l | apply sublist_skip | apply sublist_cons].
  - apply propertiesOf_same. intros f. symmetry. apply in_rev.
  - apply propertiesOf_same. intros f. rewrite in_app_iff. tauto.
Qed.

(** *** The characteristics of a service *)

Lemma discoverLoop_spec l : forall infos cache,
  match discoverLoop l infos cache with
  | Some (infos', cache') =>
      forallb (fun p => match snd p with Some _ => true | None => false end) l = true /\
      infos' = infos ++ List.map infoOf l /\
      forall u,
        cache' !! u =
        if existsb (String.eqb u) (List.map fst l) then Some newEntry else cache !! u
  | None =>
      forallb (fun p => match snd p with Some _ => true | None => false end) l = false
  end.
Proof.
  induction l as [|[u [flags|]] l IH]; intros infos cache; cbn [discoverLoop].
  - cbn. rewrite app_nil_r. auto.
  - specialize (IH (infos ++ [mkInfo (packUUID u) (propertiesOf flags)])
                   (<[u := newEntry]> cache)).
    destruct (discoverLoop l _ _) as [[infos' cache']|].
    + destruct IH as (Hall & Hinfos & Hcache). cbn [forallb List.map snd fst existsb].
      split; [exact Hall|]. split.
      * rewrite Hinfos, <- app_assoc. reflexivity.
      * intros v. rewrite Hcache.
        destruct (existsb (String.eqb v) (List.map fst l)); [now rewrite orb_true_r|].
        rewrite orb_false_r.
        destruct (String.eqb v u) eqn:E.
        -- apply String.eqb_eq in E. subst. now rewrite lookup_insert_eq.
        -- apply String.eqb_neq in E. now rewrite lookup_insert_ne.
    + cbn [forallb snd]. exact IH.
  - reflexivity.
Qed.

Lemma discovered_characteristics_spec (l : list (string * option (list string))) :
  match _discoverServiceCharacteristics (Some l) with
  | Some (infos, cache) =>
      forallb (fun p => match snd p with Some _ => true | None => false end) l = true /\
      infos = List.map infoOf l /\
      forall u,
        cache !! u =
        if existsb (String.eqb u) (List.map fst l) then Some newEntry else None
  | None =>
      forallb (fun p => match snd p with Some _ => true | None => false end) l = false
  end.
Proof.
  unfold _discoverServiceCharacteristics.
  pose proof (discoverLoop_spec l [] ∅) as H.
  destruct (discoverLoop l [] ∅) as [[infos cache]|]; [|exact H].
  destruct H as (Hall & Hinfos & Hcache). cbn in Hinfos. subst infos.
  repeat split; [exact Hall|].
  intros u. rewrite Hcache. now rewrite lookup_empty.
Qed.

(** X13: [_discoverServiceCharacteristics] is fulfilled exactly when the
    listing and the flags of every listed characteristic were obtained;
    it then reports one element per listed UUID, in order, with the packed
    UUID and the properties of its flags, and the cache entry it builds
    holds, under each listed UUID as the transport wrote it and under no
    other key, a handle without listeners and two idle, empty queues. *)
Theorem discovered_characteristics_match_the_listing
    (l : list (string * option (list string))) :
  _discoverServiceCharacteristics None = None /\
  match _discoverServiceCharacteristics (Some l) with
  | Some (infos, cache) =>
      forallb (fun p => match snd p with Some _ => true | None => false end) l = true /\
      infos = List.map infoOf l /\
      List.map info_uuid infos = List.map (fun p => packUUID (fst p)) l /\
      forall u,
        cache !! u =
        if existsb (String.eqb u) (List.map fst l) then Some newEntry else None
  | None =>
      forallb (fun p => match snd p with Some _ => true | None => false end) l = false
  end.
Proof.
  split; [reflexivity|].
  pose proof (discovered_characteristics_spec l) as H.
  destruct (_discoverServiceCharacteristics (Some l)) as [[infos cache]|]; [|exact H].
  destruct H as (Hall & -> & Hcache).
  repeat split; [exact Hall| |exact Hcache].
  rewrite List.map_map. reflexivity.
Qed.

(** *** Services *)

Lemma getPrimaryService_keeps st d s answer st1 r device :
  _device_by_uuid st !! d = Some device ->
  _getPrimaryService st d s answer = Returned (st1, r) ->
  emitted st1 = emitted st /\
  exists device1,
    _device_by_uuid st1 !! d = Some device1 /\
    cachedCharacteristics device1 = cachedCharacteristics device /\
    bleDevice device1 = bleDevice device /\
    gattServer device1 = gattServer device.
Proof.
  intros Hd. unfold _getPrimaryService. rewrite Hd.
  destruct (cachedServices device !! s) as [h|].
  - intros E. injection E as <- <-. split; [reflexivity|]. exists device. auto.
  - destruct (gattServer device) as [g|] eqn:Hg; [|discriminate].
    destruct answer as [h|]; intros E; injection E as <- <-.
    + split; [reflexivity|]. eexists. split; [apply lookup_insert_eq|].
      cbn. auto.
    + split; [reflexivity|]. exists device. auto.
Qed.

(** X14: a service is fetched once: when [_getPrimaryService] has been
    fulfilled by the transport, every later call for that service on that
    device is fulfilled with the same handle without a request, even when a
    [disconnect] request has removed the GATT root in between; a service
    that is not cached then raises a TypeError.  The service names are not
    names of properties of [Object.prototype], which every cache answers
    without holding them. *)
Theorem a_resolved_service_is_served_from_the_cache
    st d s s' device g h answer :
  _device_by_uuid st !! d = Some device ->
  bleDevice device <> None ->
  cachedServices device !! s = None ->
  JsObject.inherited s = false ->
  gattServer device = Some g ->
  s' <> s ->
  cachedServices device !! s' = None ->
  JsObject.inherited s' = false ->
  exists st1 st2,
    _getPrimaryService st d s (Some h) = Returned (st1, Some h) /\
    _getPrimaryService st1 d s answer = Returned (st1, Some h) /\
    disconnect st1 d true = Returned st2 /\
    emitted st2 = emitted st /\
    _getPrimaryService st2 d s answer = Returned (st2, Some h) /\
    _getPrimaryService st2 d s' answer = Threw TypeError.
Proof.
  intros Hd Hb Hs _ Hg Hne Hs' _.
  destruct (bleDevice device) as [b|] eqn:Hble; [clear Hb|congruence].
  set (device1 := setCachedServices (<[s := h]> (cachedServices device)) device).
  set (st1 := withDevices (<[d := device1]> (_device_by_uuid st)) st).
  set (device2 := setGattServer None device1).
  set (st2 := withDevices (<[d := device2]> (_device_by_uuid st1)) st1).
  assert (_device_by_uuid st1 !! d = Some device1) as H1 by apply lookup_insert_eq.
  assert (_device_by_uuid st2 !! d = Some device2) as H2 by apply lookup_insert_eq.
  assert (cachedServices device1 !! s = Some h) as Hc1 by apply lookup_insert_eq.
  assert (cachedServices device2 !! s' = None) as Hc2.
  { cbn. now rewrite lookup_insert_ne by congruence. }
  exists st1, st2. repeat split.
  - unfold _getPrimaryService. now rewrite Hd, Hs, Hg.
  - unfold _getPrimaryService. now rewrite H1, Hc1.
  - unfold disconnect. rewrite H1. cbn [bleDevice device1 setCachedServices].
    now rewrite Hble.
  - unfold _getPrimaryService. rewrite H2.
    change (cachedServices device2) with (cachedServices device1). now rewrite Hc1.
  - unfold _getPrimaryService. now rewrite H2, Hc2.
Qed.

Lemma a_resolved_service_is_served_from_the_cache_witness :
  exists st1,
    _getPrimaryService (bindingsWith rootedHub) "dev_A" legoService (Some 7)
    = Returned (st1, Some 7) /\
    _getPrimaryService st1 "dev_A" legoService None = Returned (st1, Some 7).
Proof.
  destruct (a_resolved_service_is_served_from_the_cache
              (bindingsWith rootedHub) "dev_A" legoService legoCharacteristic
              rootedHub 1 7 None)
    as (st1 & st2 & H1 & H2 & _); try reflexivity; try discriminate.
  exists st1. split; assumption.
Defined.

(** *** Discovering characteristics *)

Lemma fresh_entry_is_listed (chars : list (string * option (list string))) u flags :
  In (u, Some flags) chars -> existsb (String.eqb u) (List.map fst chars) = true.
Proof.
  intros H. apply existsb_exists. exists u. split; [|apply String.eqb_refl].
  apply in_map_iff. now exists (u, Some flags).
Qed.

(** X15: when the device has a characteristic cache, the service is
    resolved and the listing and all flags are obtained,
    [discoverCharacteristics] emits one [characteristicsDiscover] with an
    element per listed characteristic, and each listed characteristic
    whose UUID the transport wrote canonically is then found in the cache
    under the packed UUID of the event, with a fresh entry, under every
    service name that unpacks to the same cache key as the name of the
    call; a [read] of it returns.  The cache key of the service is not the
    name of a property of [Object.prototype]. *)
Theorem discovered_characteristics_are_found_in_the_cache
    st d s device cache service st1 h chars u flags :
  _device_by_uuid st !! d = Some device ->
  cachedCharacteristics device = Some cache ->
  _getPrimaryService st d (unpackUUID s) service = Returned (st1, Some h) ->
  JsObject.inherited (unpackUUID s) = false ->
  forallb (fun p => match snd p with Some _ => true | None => false end) chars = true ->
  In (u, Some flags) chars ->
  unpackUUID (packUUID u) = u ->
  exists st2,
    discoverCharacteristics st d s service (Some chars)
    = Returned (st2, [EvCharacteristicsDiscover d s (List.map infoOf chars)],
                ReturnsUndefined) /\
    In (mkInfo (packUUID u) (propertiesOf flags)) (List.map infoOf chars) /\
    emitted st2 = emitted st /\
    _getCharacteristic st2 d s (packUUID u) = Returned (Some newEntry) /\
    (forall s', unpackUUID s' = unpackUUID s ->
       _getCharacteristic st2 d s' (packUUID u) = Returned (Some newEntry)) /\
    exists st3, read st2 d s (packUUID u) = Returned st3.
Proof.
  intros Hd Hc Hg _ Hall Hin Hu.
  destruct (getPrimaryService_keeps st d (unpackUUID s) service st1 (Some h) device Hd Hg)
    as (He & device1 & Hd1 & Hc1 & _).
  pose proof (discovered_characteristics_spec chars) as Hspec.
  destruct (_discoverServiceCharacteristics (Some chars)) as [[infos entries]|] eqn:Hdisc;
    [|congruence].
  destruct Hspec as (_ & -> & Hentries).
  set (device2 :=
         setCachedCharacteristics (Some (<[unpackUUID s := entries]> cache)) device1).
  set (st2 := withDevices (<[d := device2]> (_device_by_uuid st1)) st1).
  assert (_device_by_uuid st2 !! d = Some device2) as Hd2 by apply lookup_insert_eq.
  assert (entries !! u = Some newEntry) as Hentry.
  { rewrite Hentries. now rewrite (fresh_entry_is_listed chars u flags Hin). }
  assert (forall s', unpackUUID s' = unpackUUID s ->
            _getCharacteristic st2 d s' (packUUID u) = Returned (Some newEntry)) as Hfound.
  { intros s' Es. unfold _getCharacteristic. rewrite Hd2.
    cbn [cachedCharacteristics device2 setCachedCharacteristics].
    rewrite Es, lookup_insert_eq. cbn. now rewrite Hu, Hentry. }
  exists st2. repeat split.
  - unfold discoverCharacteristics. rewrite Hd, Hg, Hdisc.
    unfold onCharacteristics. rewrite Hd1, Hc1, Hc. reflexivity.
  - apply in_map_iff. exists (u, Some flags). split; [reflexivity|exact Hin].
  - exact He.
  - now apply Hfound.
  - exact Hfound.
  - unfold read. rewrite (Hfound s eq_refl). eauto.
Qed.

Lemma discovered_characteristics_are_found_in_the_cache_witness :
  exists st2,
    discoverCharacteristics (bindingsWith rootedHub) "dev_A"
      "000016231212efde1623785feabcd123" (Some 7) legoAnswer
    = Returned
        (st2,
         [EvCharacteristicsDiscover "dev_A" "000016231212efde1623785feabcd123"
            [mkInfo "000016241212efde1623785feabcd123"
               ["writeWithoutResponse"; "write"; "notify"]]],
         ReturnsUndefined) /\
    _getCharacteristic st2 "dev_A" "000016231212efde1623785feabcd123"
      "000016241212efde1623785feabcd123" = Returned (Some newEntry).
Proof.
  destruct (discovered_characteristics_are_found_in_the_cache
              (bindingsWith rootedHub) "dev_A" "000016231212efde1623785feabcd123"
              rootedHub ∅ (Some 7) _ 7
              [(legoCharacteristic, Some ["write-without-response"; "write"; "notify"])]
              legoCharacteristic ["write-without-response"; "write"; "notify"]
              eq_refl eq_refl eq_refl eq_refl eq_refl (or_introl eq_refl) eq_refl)
    as (st2 & H1 & _ & _ & H2 & _).
  exists st2. split; [exact H1|exact H2].
Defined.







(** X18: without a GATT root and with the service not cached,
    [discoverCharacteristics] ends with a TypeError before anything is
    requested; after a [discoverServices] whose request for the GATT root
    was fulfilled it returns, whatever else the transport answers, and
    [discoverServices] has emitted the packed service UUIDs when it obtained
    the list and nothing otherwise.  For an unknown device,
    [discoverCharacteristics] returns a rejected promise and
    [discoverServices] returns without an event.  The cache key of the
    service and the unknown identifier are not names of properties of
    [Object.prototype], which the cache and the registry answer without
    holding them. *)
Theorem discoverServices_provides_the_gatt_root
    st d unknown device h g services s service chars :
  _device_by_uuid st !! d = Some device ->
  bleDevice device = Some h ->
  gattServer device = None ->
  cachedServices device !! unpackUUID s = None ->
  JsObject.inherited (unpackUUID s) = false ->
  _device_by_uuid st !! unknown = None ->
  JsObject.inherited unknown = false ->
  discoverCharacteristics st d s service chars = Threw TypeError /\
  discoverCharacteristics st unknown s service chars
  = Returned (st, [], ReturnsRejectedPromise) /\
  discoverServices st unknown (Some g) services = Returned (st, []) /\
  exists st1,
    discoverServices st d (Some g) services
    = Returned (st1,
                match services with
                | Some l => [EvServicesDiscover d (List.map packUUID l)]
                | None => []
                end) /\
    exists r, discoverCharacteristics st1 d s service chars = Returned r.
Proof.
  intros Hd Hb Hg Hs _ Hu _.
  set (device1 :=
         match services with
         | Some l => setServiceUuids (Some l) (setGattServer (Some g) device)
         | None => setGattServer (Some g) device
         end).
  set (st1 := withDevices (<[d := device1]> (_device_by_uuid st)) st).
  assert (_device_by_uuid st1 !! d = Some device1) as H1 by apply lookup_insert_eq.
  repeat split.
  - unfold discoverCharacteristics, _getPrimaryService. now rewrite Hd, Hs, Hg.
  - unfold discoverCharacteristics. now rewrite Hu.
  - unfold discoverServices. now rewrite Hu.
  - exists st1. split.
    + unfold discoverServices. rewrite Hd, Hb. unfold st1, device1. now destruct services.
    + unfold discoverCharacteristics. rewrite H1.
      destruct (_getPrimaryService st1 d (unpackUUID s) service) as [[st2 [h2|]]|e] eqn:E.
      * destruct (_discoverServiceCharacteristics chars); [|eauto].
        destruct (onCharacteristics st2 d s p). eauto.
      * eauto.
      * exfalso. revert E. unfold _getPrimaryService. rewrite H1.
        destruct (cachedServices device1 !! unpackUUID s); [discriminate|].
        assert (gattServer device1 = Some g) as -> by (unfold device1; now destruct services).
        destruct service; discriminate.
Qed.

Lemma discoverServices_provides_the_gatt_root_witness :
  discoverCharacteristics (bindingsWith hub) "dev_A" legoService (Some 7) legoAnswer
  = Threw TypeError /\
  exists st1,
    discoverServices (bindingsWith hub) "dev_A" (Some 1) (Some [legoService])
    = Returned (st1, [EvServicesDiscover "dev_A" ["000016231212efde1623785feabcd123"]]).
Proof.
  destruct (discoverServices_provides_the_gatt_root
              (bindingsWith hub) "dev_A" "dev_Z" hub [] 1 (Some [legoService])
              legoService (Some 7) legoAnswer
              eq_refl eq_refl eq_refl eq_refl eq_refl eq_refl eq_refl)
    as (H1 & _ & _ & st1 & H2 & _).
  split; [exact H1|]. exists st1. exact H2.
Defined.

(** *** Reads in a row *)

Lemma storeEntry_emitted st d s c entry : emitted (storeEntry st d s c entry) = emitted st.
Proof.
  unfold storeEntry.
  destruct (_device_by_uuid st !! d) as [device|]; [|reflexivity].
  destruct (cachedCharacteristics device) as [cache|]; [|reflexivity].
  destruct (cache !! unpackUUID s); reflexivity.
Qed.

Lemma readEach_queues d s c n : forall st entry,
  _getCharacteristic st d s c = Returned (Some entry) ->
  exists st1,
    readEach st d s c n = Returned st1 /\
    emitted st1 = emitted st /\
    _getCharacteristic st1 d s c
    = Returned
        (Some (mkEntry (characteristic entry)
                 (AsyncQueue.run (repeat (AsyncQueue.Enqueue loggedOperation) n)
                    (readQueue entry))
                 (writeQueue entry))).
Proof.
  induction n as [|n IH]; intros st entry Hg.
  - exists st. cbn. destruct entry; auto.
  - cbn [readEach]. unfold read. rewrite Hg.
    set (entry1 := mkEntry _ _ _).
    destruct (IH (storeEntry st d s c entry1) entry1) as (st1 & Hrun & He & Hg1).
    { now apply getCharacteristic_storeEntry with entry. }
    exists st1. split; [exact Hrun|]. split.
    + now rewrite He, storeEntry_emitted.
    + exact Hg1.
Qed.

Lemma readSettledEach_drains d s c answers : forall st entry,
  _getCharacteristic st d s c = Returned (Some entry) ->
  emitted (readSettledEach st d s c answers) = emitted st ++ readEvents d s c answers /\
  _getCharacteristic (readSettledEach st d s c answers) d s c
  = Returned
      (Some (mkEntry (characteristic entry)
               (AsyncQueue.run (repeat AsyncQueue.Settle (List.length answers))
                  (readQueue entry))
               (writeQueue entry))).
Proof.
  induction answers as [|answer answers IH]; intros st entry Hg.
  - cbn. rewrite app_nil_r. destruct entry; auto.
  - unfold readSettledEach. cbn [fold_left]. fold (readSettledEach
      (readSettled st d s c answer) d s c answers).
    set (st0 := match answer with
                | Some data => emit (EvRead d s c data false) st
                | None => st
                end).
    assert (_getCharacteristic st0 d s c = Returned (Some entry)) as Hg0
      by (unfold st0; now destruct answer).
    assert (emitted st0 = emitted st ++ readEvents d s c [answer]) as He0.
    { unfold st0. destruct answer; cbn; [reflexivity|now rewrite app_nil_r]. }
    set (entry1 := mkEntry (characteristic entry) (AsyncQueue.resume (readQueue entry))
                     (writeQueue entry)).
    assert (readSettled st d s c answer = storeEntry st0 d s c entry1) as ->.
    { unfold readSettled. fold st0. now rewrite Hg0. }
    destruct (IH (storeEntry st0 d s c entry1) entry1) as (He & Hg1).
    { now apply getCharacteristic_storeEntry with entry. }
    split.
    + rewrite He, storeEntry_emitted, He0, <- app_assoc. cbn. now rewrite app_nil_r.
    + exact Hg1.
Qed.

(** X19: [n] reads of a cached characteristic whose read queue is new emit
    nothing by themselves; as the [n] answers of [readValue()] arrive, one
    [read] event (with the notification flag clear) is emitted for each
    fulfilled answer, in the order of the calls, and none for a rejected
    one, which does not keep the later reads from running; at the end the
    read queue is idle with all [n] operations completed in order, and the
    write queue and the listeners of the characteristic are untouched. *)
Theorem reads_in_a_row_are_answered_in_order st d s c entry answers :
  _getCharacteristic st d s c = Returned (Some entry) ->
  readQueue entry = AsyncQueue.newWorld ->
  exists st1 entry2,
    readEach st d s c (List.length answers) = Returned st1 /\
    emitted st1 = emitted st /\
    emitted (readSettledEach st1 d s c answers) = emitted st ++ readEvents d s c answers /\
    _getCharacteristic (readSettledEach st1 d s c answers) d s c
    = Returned (Some entry2) /\
    AsyncQueue.completions (AsyncQueue.trace (readQueue entry2))
    = seq 0 (List.length answers) /\
    AsyncQueue._pendingPromise (AsyncQueue.queue (readQueue entry2)) = false /\
    AsyncQueue.size (AsyncQueue.queue (readQueue entry2)) = 0 /\
    writeQueue entry2 = writeQueue entry /\
    characteristic entry2 = characteristic entry.
Proof.
  intros Hg Hq.
  destruct (readEach_queues d s c (List.length answers) st entry Hg)
    as (st1 & Hrun & He1 & Hg1).
  destruct (readSettledEach_drains d s c answers st1 _ Hg1) as (He2 & Hg2).
  cbn [characteristic readQueue writeQueue] in Hg2.
  rewrite Hq, <- AsyncQueueFacts.run_app in Hg2.
  set (n := List.length answers) in *.
  pose proof (AsyncQueueFacts.drained (repeat (AsyncQueue.Enqueue loggedOperation) n))
    as Hdr.
  assert (AsyncQueue.submitted (repeat (AsyncQueue.Enqueue loggedOperation) n)
          = repeat loggedOperation n) as Hsub.
  { clear. induction n as [|n IH]; cbn; [reflexivity|now rewrite IH]. }
  rewrite Hsub, repeat_length in Hdr. cbn zeta in Hdr.
  destruct Hdr as (Ht & Hqq & _).
  eexists st1, _. split; [exact Hrun|]. split; [exact He1|].
  split; [now rewrite He2, He1|]. split; [exact Hg2|].
  cbn [readQueue writeQueue characteristic].
  rewrite Ht, Hqq, AsyncQueueFacts.completions_serial, repeat_length.
  repeat split.
Qed.

Lemma reads_in_a_row_are_answered_in_order_witness :
  exists st1,
    readEach (bindingsWith exploredHub) "dev_A" "000016231212efde1623785feabcd123"
      "000016241212efde1623785feabcd123" 3 = Returned st1 /\
    emitted
      (readSettledEach st1 "dev_A" "000016231212efde1623785feabcd123"
         "000016241212efde1623785feabcd123" [Some [1%N]; None; Some [2%N]])
    = [EvRead "dev_A" "000016231212efde1623785feabcd123"
         "000016241212efde1623785feabcd123" [1%N] false;
       EvRead "dev_A" "000016231212efde1623785feabcd123"
         "000016241212efde1623785feabcd123" [2%N] false].
Proof.
  destruct (reads_in_a_row_are_answered_in_order
              (bindingsWith exploredHub) "dev_A" "000016231212efde1623785feabcd123"
              "000016241212efde1623785feabcd123" freshEntry
              [Some [1%N]; None; Some [2%N]] eq_refl eq_refl)
    as (st1 & entry2 & H1 & _ & H2 & _).
  exists st1. split; [exact H1|exact H2].
Defined.

(** *** Independence *)

Lemma storeEntry_frame st d s c entry d' s' c' :
  d' <> d \/ unpackUUID s' <> unpackUUID s \/ unpackUUID c' <> unpackUUID c ->
  _getCharacteristic (storeEntry st d s c entry) d' s' c' = _getCharacteristic st d' s' c'.
Proof.
  intros Hne. unfold storeEntry.
  destruct (_device_by_uuid st !! d) as [device|] eqn:Hd; [|reflexivity].
  destruct (cachedCharacteristics device) as [cache|] eqn:Hc; [|reflexivity].
  destruct (cache !! unpackUUID s) as [entries|] eqn:Hs; [|reflexivity].
  unfold _getCharacteristic. cbn [_device_by_uuid withDevices].
  destruct (decide (d' = d)) as [->|Hd']; [|now rewrite lookup_insert_ne by congruence].
  rewrite lookup_insert_eq, Hd. cbn [cachedCharacteristics]. rewrite Hc. cbn.
  destruct (decide (unpackUUID s' = unpackUUID s)) as [Es|Hs'];
    [|now rewrite lookup_insert_ne by congruence].
  rewrite Es, lookup_insert_eq, Hs.
  destruct Hne as [Hne|[Hne|Hne]]; [congruence|congruence|].
  now rewrite lookup_insert_ne by congruence.
Qed.

(** X20: [read], [write] and [notify] on one characteristic change nothing
    of what is cached for a characteristic with another key, be it of
    another device, another service or the same service: its listeners and
    its two queues are as before. *)
Theorem operations_leave_other_characteristics_alone
    st d s c d' s' c' data withoutResponse enable answered :
  d' <> d \/ unpackUUID s' <> unpackUUID s \/ unpackUUID c' <> unpackUUID c ->
  match read st d s c with
  | Returned st' => _getCharacteristic st' d' s' c' = _getCharacteristic st d' s' c'
  | Threw _ => True
  end /\
  match write st d s c data withoutResponse with
  | Returned st' => _getCharacteristic st' d' s' c' = _getCharacteristic st d' s' c'
  | Threw _ => True
  end /\
  match notify st d s c enable answered with
  | Returned st' => _getCharacteristic st' d' s' c' = _getCharacteristic st d' s' c'
  | Threw _ => True
  end.
Proof.
  intros Hne. unfold read, write, notify.
  destruct (_getCharacteristic st d s c) as [[entry|]|e]; try (repeat split; fail).
  repeat split; try now apply storeEntry_frame.
  destruct enable, answered; rewrite ?getCharacteristic_emit; now apply storeEntry_frame.
Qed.

Lemma operations_leave_other_characteristics_alone_witness :
  match notify (bindingsWith exploredHub) "dev_A" "000016231212efde1623785feabcd123"
          "000016241212efde1623785feabcd123" true true with
  | Returned st' =>
      _getCharacteristic st' "dev_A" "000016231212efde1623785feabcd123"
        "00001625-1212-efde-1623-785feabcd123"
      = _getCharacteristic (bindingsWith exploredHub) "dev_A"
          "000016231212efde1623785feabcd123" "00001625-1212-efde-1623-785feabcd123"
  | Threw _ => True
  end.
Proof.
  refine (proj2 (proj2 (operations_leave_other_characteristics_alone
                          (bindingsWith exploredHub) "dev_A"
                          "000016231212efde1623785feabcd123"
                          "000016241212efde1623785feabcd123"
                          "dev_A" "000016231212efde1623785feabcd123"
                          "00001625-1212-efde-1623-785feabcd123" [] false true true _))).
  right. right. vm_compute. discriminate.
Defined.

(** X21: the two queues of a characteristic do not wait for each other: a
    [write] on a characteristic whose write queue is new starts at once and
    leaves the read queue as it is, whatever is running or waiting there,
    and emits nothing by itself. *)
Theorem a_write_does_not_wait_for_reads st d s c entry data withoutResponse :
  _getCharacteristic st d s c = Returned (Some entry) ->
  writeQueue entry = AsyncQueue.newWorld ->
  exists st1 entry1,
    write st d s c data withoutResponse = Returned st1 /\
    emitted st1 = emitted st /\
    _getCharacteristic st1 d s c = Returned (Some entry1) /\
    readQueue entry1 = readQueue entry /\
    characteristic entry1 = characteristic entry /\
    AsyncQueue.trace (writeQueue entry1) = [AsyncQueue.Started 0] /\
    AsyncQueue._pendingPromise (AsyncQueue.queue (writeQueue entry1)) = true.
Proof.
  intros Hg Hq. unfold write. rewrite Hg, Hq.
  eexists. eexists. split; [reflexivity|].
  split; [apply storeEntry_emitted|].
  split; [now apply getCharacteristic_storeEntry with entry|].
  repeat split.
Qed.

Lemma a_write_does_not_wait_for_reads_witness :
  exists st0 st1,
    read (bindingsWith exploredHub) "dev_A" "000016231212efde1623785feabcd123"
      "000016241212efde1623785feabcd123" = Returned st0 /\
    write st0 "dev_A" "000016231212efde1623785feabcd123"
      "000016241212efde1623785feabcd123" [5%N] false = Returned st1 /\
    emitted st1 = [].
Proof.
  eexists. destruct (a_write_does_not_wait_for_reads
              (storeEntry (bindingsWith exploredHub) "dev_A"
                 "000016231212efde1623785feabcd123" "000016241212efde1623785feabcd123"
                 (mkEntry [] (fst (AsyncQueue.enqueue loggedOperation AsyncQueue.newWorld))
                    AsyncQueue.newWorld))
              "dev_A" "000016231212efde1623785feabcd123"
              "000016241212efde1623785feabcd123"
              (mkEntry [] (fst (AsyncQueue.enqueue loggedOperation AsyncQueue.newWorld))
                 AsyncQueue.newWorld)
              [5%N] false eq_refl eq_refl)
    as (st1 & entry1 & H1 & H2 & _).
  exists st1. split; [reflexivity|]. split; [exact H1|exact H2].
Defined.

End GattFacts.

(** ** The filter and the timer of the discovery loop *)
Module LoopExtras.
Import JsString Uuid Bindings Samples Gatt BindingsFacts ScanExtras.
Local Open Scope list_scope.

(** X22: with the filter that [startScanning] records for a non-empty list
    of UUIDs, a fetched device passes exactly when one of the service UUIDs
    the transport reports for it packs to the same identifier as one of the
    UUIDs asked for: casing and hyphens, in the request and in the report,
    do not matter, and a device whose service UUID query failed never
    passes. *)
Theorem the_filter_ignores_casing_and_hyphens st a wanted others :
  _serviceUuidFilterList st = List.map packUUID (wanted :: others) ->
  _isAdvertisingWantedCriteria st (_getAdvertisementData a) = true <->
  exists raw y f,
    ans_serviceUUIDs a = Some raw /\ In y raw /\ In f (wanted :: others) /\
    packUUID y = packUUID f.
Proof.
  intros Hf. rewrite wanted_is_filterPasses, filterPasses_spec, Hf.
  assert (adv_serviceUuids (advertisement (_getAdvertisementData a))
          = match ans_serviceUUIDs a with
            | Some raw => List.map packUUID raw
            | None => []
            end) as ->.
  { destruct a as [dv ad ty pa [nm|] [sd|] [raw|]]; reflexivity. }
  split.
  - intros [E|(u & Hu & Hin)]; [discriminate|].
    destruct (ans_serviceUUIDs a) as [raw|]; [|destruct Hu].
    apply in_map_iff in Hu. destruct Hu as (y & Ey & Hy).
    apply in_map_iff in Hin. destruct Hin as (f & Ef & Hin).
    exists raw, y, f. repeat split; try assumption. congruence.
  - intros (raw & y & f & -> & Hy & Hin & E). right.
    exists (packUUID y). split; [now apply in_map|].
    rewrite E. now apply in_map.
Qed.

Lemma the_filter_ignores_casing_and_hyphens_witness :
  _isAdvertisingWantedCriteria filtering
    (_getAdvertisementData
       (mkAnswers "dev_B" "B" "public" false None None
          (Some ["0000180F-0000-1000-8000-00805F9B34FB";
                 "00001623-1212-EFDE-1623-785FEABCD123"])))
  = true.
Proof.
  apply (proj2 (the_filter_ignores_casing_and_hyphens filtering
                  (mkAnswers "dev_B" "B" "public" false None None
                     (Some ["0000180F-0000-1000-8000-00805F9B34FB";
                            "00001623-1212-EFDE-1623-785FEABCD123"]))
                  legoService [] eq_refl)).
  exists ["0000180F-0000-1000-8000-00805F9B34FB"; "00001623-1212-EFDE-1623-785FEABCD123"],
         "00001623-1212-EFDE-1623-785FEABCD123", legoService.
  split; [reflexivity|]. split; [right; left; reflexivity|].
  split; [left; reflexivity|]. vm_compute. reflexivity.
Defined.

Lemma onAdvertisementData_timers st k device :
  timers (onAdvertisementData st k device) = timers st /\
  nextTimer (onAdvertisementData st k device) = nextTimer st /\
  _discoveryProcessId (onAdvertisementData st k device) = _discoveryProcessId st.
Proof.
  unfold onAdvertisementData.
  destruct (_isAdvertisingWantedCriteria st device); [|cbn; auto].
  destruct (_device_by_uuid st !! k); cbn; auto.
Qed.

Lemma fetched_all_timers serializeUUID fetch l : forall st,
  timers (fold_left (fetched serializeUUID fetch) l st) = timers st /\
  nextTimer (fold_left (fetched serializeUUID fetch) l st) = nextTimer st /\
  _discoveryProcessId (fold_left (fetched serializeUUID fetch) l st)
  = _discoveryProcessId st.
Proof.
  induction l as [|a l IH]; intros st; cbn [fold_left]; [auto|].
  destruct (IH (fetched serializeUUID fetch st a)) as (H1 & H2 & H3).
  rewrite H1, H2, H3. unfold fetched.
  destruct (fetch a); [apply onAdvertisementData_timers|auto].
Qed.

(** X23: a tick removes the timer that fired and arms one new timer exactly
    when a discovery timer is recorded, whatever the listing and the
    fetches do, a failed listing included; when none is recorded, as after
    [stopScanning], the tick arms nothing, so the loop ends. *)
Theorem a_tick_rearms_only_while_a_timer_is_recorded
    (serializeUUID : string -> string) (fetch : string -> option DeviceAnswers)
    (st : NobleBindings) (fired : nat) (devices : option (list string)) :
  let st' := _onScanningDurationElapsed serializeUUID st fired devices fetch in
  _discoveryProcessId st' =
    match _discoveryProcessId st with
    | Some _ => Some (nextTimer st)
    | None => None
    end /\
  timers st' =
    List.filter (fun t => negb (t =? fired)%nat) (timers st)
    ++ match _discoveryProcessId st with
       | Some _ => [nextTimer st]
       | None => []
       end.
Proof.
  cbn zeta. unfold _onScanningDurationElapsed.
  set (st0 := mkBindings _ _ _ _ _ _ _ _).
  set (started := match devices with Some l => tickFetches serializeUUID st0 l | None => [] end).
  destruct (fetched_all_timers serializeUUID fetch started (rearm st0)) as (H1 & H2 & H3).
  rewrite H1, H3. unfold rearm, st0. cbn.
  destruct (_discoveryProcessId st); cbn; repeat split; auto; now rewrite app_nil_r.
Qed.

End LoopExtras.

(** ** The scanning session *)
Module DiscoveryFacts.
Import Uuid Bindings Samples Discovery.
Local Open Scope list_scope.

Lemma tickStarts_keeps serializeUUID st fired devices :
  _device_by_uuid (fst (tickStarts serializeUUID st fired devices)) = _device_by_uuid st /\
  emitted (fst (tickStarts serializeUUID st fired devices)) = emitted st /\
  _serviceUuidFilterList (fst (tickStarts serializeUUID st fired devices))
  = _serviceUuidFilterList st.
Proof.
  unfold tickStarts. cbn [fst]. unfold rearm. cbn.
  destruct (_discoveryProcessId st); cbn; auto.
Qed.

Lemma tickStarts_In serializeUUID st fired devices a :
  In a (snd (tickStarts serializeUUID st fired (Some devices))) <->
  In a devices /\ _device_by_uuid st !! serializeUUID a = None.
Proof.
  unfold tickStarts. cbn [snd].
  set (st0 := mkBindings _ _ _ _ _ _ _ _).
  apply (BindingsFacts.tickFetches_In serializeUUID st0 devices a).
Qed.

Lemma fetchSettles_registry serializeUUID st address ans :
  _device_by_uuid (fetchSettles serializeUUID st address (Some ans))
  = <[serializeUUID address :=
        if filterPasses (_serviceUuidFilterList st) (_getAdvertisementData ans)
        then _getAdvertisementData ans
        else deleteBleDevice (_getAdvertisementData ans)]> (_device_by_uuid st).
Proof.
  unfold fetchSettles, onAdvertisementData.
  rewrite BindingsFacts.wanted_is_filterPasses.
  destruct (filterPasses _ _); cbn; [|reflexivity].
  destruct (_device_by_uuid st !! serializeUUID address); cbn; [reflexivity|].
  now rewrite insert_insert_eq.
Qed.

Lemma fetchSettles_emitted serializeUUID st address ans :
  emitted (fetchSettles serializeUUID st address (Some ans))
  = emitted st ++
    match _device_by_uuid st !! serializeUUID address with
    | None =>
        if filterPasses (_serviceUuidFilterList st) (_getAdvertisementData ans)
        then [discoverEvent (_getAdvertisementData ans)] else []
    | Some _ => []
    end.
Proof.
  unfold fetchSettles, onAdvertisementData.
  rewrite BindingsFacts.wanted_is_filterPasses.
  destruct (filterPasses _ _); cbn.
  - destruct (_device_by_uuid st !! serializeUUID address); cbn;
      [now rewrite app_nil_r|reflexivity].
  - destruct (_device_by_uuid st !! serializeUUID address); now rewrite app_nil_r.
Qed.

Lemma getAdvertisementData_identity a :
  uuid (_getAdvertisementData a) = ans_device a /\
  address (_getAdvertisementData a) = ans_address a /\
  addressType (_getAdvertisementData a) = ans_addressType a /\
  paired (_getAdvertisementData a) = ans_paired a /\
  bleDevice (_getAdvertisementData a) = Some [] /\
  adv_serviceUuids (advertisement (_getAdvertisementData a))
  = match ans_serviceUUIDs a with
    | Some raw => List.map packUUID raw
    | None => []
    end.
Proof. destruct a as [dv ad ty pa [nm|] [sd|] [raw|]]; cbn; auto 10. Qed.

Lemma scanStep_keeps_registered serializeUUID ev s k :
  is_Some (_device_by_uuid (binding s) !! k) ->
  is_Some (_device_by_uuid (binding (scanStep serializeUUID s ev)) !! k).
Proof.
  intros H. destruct ev as [fired devices|address answer]; cbn [scanStep].
  - pose proof (tickStarts_keeps serializeUUID (binding s) fired devices) as (Hr & _).
    destruct (tickStarts serializeUUID (binding s) fired devices) as [st started].
    cbn [binding]. cbn [fst] in Hr. now rewrite Hr.
  - destruct (settleOne address (inflight s)) as [rest|]; [|exact H].
    cbn [binding]. destruct answer as [ans|]; [|exact H].
    rewrite fetchSettles_registry.
    destruct (decide (k = serializeUUID address)) as [->|Hne].
    + rewrite lookup_insert_eq. eauto.
    + now rewrite lookup_insert_ne by congruence.
Qed.

Lemma scanRun_keeps_registered serializeUUID evs : forall s k,
  is_Some (_device_by_uuid (binding s) !! k) ->
  is_Some (_device_by_uuid (binding (scanRun serializeUUID evs s)) !! k).
Proof.
  induction evs as [|ev evs IH]; intros s k H; [exact H|].
  cbn [scanRun fold_left]. apply IH. now apply scanStep_keeps_registered.
Qed.

Lemma settleOne_head a rest : settleOne a (a :: rest) = Some rest.
Proof. cbn. now rewrite String.eqb_refl. Qed.

Lemma settle_in_listing_order serializeUUID fetch l : forall st rest log,
  binding
    (scanRun serializeUUID (List.map (fun a => FetchSettles a (fetch a)) l)
       (mkScan st (l ++ rest) log))
  = fold_left (fetched serializeUUID fetch) l st.
Proof.
  induction l as [|a l IH]; intros st rest log; [reflexivity|].
  cbn [List.map scanRun fold_left scanStep inflight app].
  rewrite settleOne_head. cbn [binding fetches].
  apply IH.
Qed.

(** The tick whose fetches settle in the order of the listing, before
    anything else happens, is one of the sessions. *)
Lemma tick_is_a_session serializeUUID st fired devices fetch :
  _onScanningDurationElapsed serializeUUID st fired devices fetch
  = binding
      (scanRun serializeUUID
         (TimerFires fired devices ::
          List.map (fun a => FetchSettles a (fetch a))
            (snd (tickStarts serializeUUID st fired devices)))
         (mkScan st [] [])).
Proof.
  unfold scanRun. cbn [fold_left scanStep binding inflight fetches].
  destruct (tickStarts serializeUUID st fired devices) as [st1 started] eqn:E.
  cbn [snd app].
  pose proof (settle_in_listing_order serializeUUID fetch started st1 [] started) as H.
  rewrite app_nil_r in H. unfold scanRun in H. rewrite H.
  unfold tickStarts in E. injection E as <- <-. reflexivity.
Qed.

(** C8, as the code has it: a tick starts a fetch exactly for the listed
    addresses whose identifier is not in the registry at that moment, and
    changes neither the registry nor what was emitted.  When a fetch
    settles with a snapshot, a [discover] event carrying that snapshot's
    identifier, address, address type, pairing and packed service UUIDs is
    emitted exactly when the identifier is still not registered and the
    filter is empty or meets the snapshot's service UUIDs; nothing is
    emitted otherwise.  The snapshot is then registered under the
    identifier in either case, with its live handle when it passes the
    filter and without it when it fails; a rejected fetch changes nothing.
    From then on, whatever ticks and settling fetches follow, the identifier
    stays registered, no tick starts a fetch for the address, and no fetch
    settling for it emits anything.  The identifiers the transport computes
    are not names of properties of [Object.prototype], which the registry
    answers without holding them. *)
Theorem a_settled_fetch_is_announced_when_new_and_wanted
    (serializeUUID : string -> string) (st : NobleBindings)
    (fired : nat) (devices : list string) (address : string) (ans : DeviceAnswers) :
  (forall a, JsObject.inherited (serializeUUID a) = false) ->
  let key := serializeUUID address in
  let device := _getAdvertisementData ans in
  let passes := filterPasses (_serviceUuidFilterList st) device in
  let st' := fetchSettles serializeUUID st address (Some ans) in
  (forall a, In a (snd (tickStarts serializeUUID st fired (Some devices))) <->
             In a devices /\ _device_by_uuid st !! serializeUUID a = None) /\
  _device_by_uuid (fst (tickStarts serializeUUID st fired (Some devices)))
  = _device_by_uuid st /\
  emitted (fst (tickStarts serializeUUID st fired (Some devices))) = emitted st /\
  adv_serviceUuids (advertisement device)
  = match ans_serviceUUIDs ans with
    | Some raw => List.map packUUID raw
    | None => []
    end /\
  emitted st'
  = emitted st ++
    match _device_by_uuid st !! key with
    | None =>
        if passes
        then [EvDiscover (ans_device ans) (ans_address ans) (ans_addressType ans)
                (negb (ans_paired ans)) (advertisement device) false]
        else []
    | Some _ => []
    end /\
  _device_by_uuid st' !! key = Some (if passes then device else deleteBleDevice device) /\
  bleDevice <$> _device_by_uuid st' !! key = Some (if passes then Some [] else None) /\
  (forall k, k <> key -> _device_by_uuid st' !! k = _device_by_uuid st !! k) /\
  fetchSettles serializeUUID st address None = st /\
  (forall evs waiting started,
     let s := scanRun serializeUUID evs (mkScan st' waiting started) in
     is_Some (_device_by_uuid (binding s) !! key) /\
     (forall fired' later,
        ~ In address (snd (tickStarts serializeUUID (binding s) fired' (Some later)))) /\
     (forall answer,
        emitted (fetchSettles serializeUUID (binding s) address answer)
        = emitted (binding s))).
Proof.
  intros _. cbn zeta.
  pose proof (getAdvertisementData_identity ans) as (Hu & Ha & Ht & Hp & Hb & Hs).
  pose proof (fetchSettles_registry serializeUUID st address ans) as Hreg.
  split; [intros a; apply tickStarts_In|].
  split; [apply tickStarts_keeps|].
  split; [apply tickStarts_keeps|].
  split; [exact Hs|].
  split.
  { rewrite fetchSettles_emitted. unfold discoverEvent. now rewrite Hu, Ha, Ht, Hp. }
  split; [rewrite Hreg; apply lookup_insert_eq|].
  split.
  { rewrite Hreg, lookup_insert_eq. cbn.
    destruct (filterPasses _ _); cbn; [now rewrite Hb|reflexivity]. }
  split; [intros k Hk; rewrite Hreg; now apply lookup_insert_ne|].
  split; [reflexivity|].
  intros evs waiting started.
  assert (is_Some
            (_device_by_uuid
               (binding
                  (scanRun serializeUUID evs
                     (mkScan (fetchSettles serializeUUID st address (Some ans))
                        waiting started)))
             !! serializeUUID address)) as Hkept.
  { apply scanRun_keeps_registered. cbn [binding]. rewrite Hreg, lookup_insert_eq. eauto. }
  split; [exact Hkept|]. split.
  - intros fired' later Hin. apply tickStarts_In in Hin. destruct Hin as [_ Hin].
    rewrite Hin in Hkept. now destruct Hkept.
  - intros [answer|]; [|reflexivity].
    rewrite fetchSettles_emitted. destruct Hkept as [seen ->]. apply app_nil_r.
Qed.

Lemma a_settled_fetch_is_announced_when_new_and_wanted_witness :
  emitted (fetchSettles serialize filtering "A" (Some lateSnapshot))
  = [EvScanStart;
     EvDiscover "dev_A" "A" "public" true
       (mkAdvertisement None [packUUID legoService] []) false] /\
  bleDevice <$>
    _device_by_uuid (fetchSettles serialize filtering "A" (Some lateSnapshot))
      !! serialize "A"
  = Some (Some []).
Proof.
  destruct (a_settled_fetch_is_announced_when_new_and_wanted
              serialize filtering 0 ["A"] "A" lateSnapshot (fun a => eq_refl))
    as (_ & _ & _ & _ & He & _ & Hb & _).
  split; [rewrite He|rewrite Hb]; reflexivity.
Defined.

(** C8 as the specification words it fails: an address listed again while
    its fetch has not settled is fetched again, though the device fails the
    filter and is registered; and the snapshot of that second fetch, which
    passes the filter, produces no [discover] event. *)
Lemma a_slow_fetch_is_started_again :
  let s := scanRun serialize slowFetch (mkScan filtering [] []) in
  fetches s = ["A"; "A"] /\
  ~ timesFetched s "A" <= 1 /\
  inflight s = [] /\
  (exists first, answersFor "A" = Some first /\
     filterPasses (_serviceUuidFilterList filtering) (_getAdvertisementData first) = false) /\
  (exists second, lateAnswer = Some second /\
     filterPasses (_serviceUuidFilterList filtering) (_getAdvertisementData second) = true) /\
  emitted (binding s) = [EvScanStart] /\
  is_Some (_device_by_uuid (binding s) !! serialize "A").
Proof.
  cbn zeta.
  split; [reflexivity|].
  split; [vm_compute; lia|].
  split; [reflexivity|].
  split; [eexists; split; [reflexivity|reflexivity]|].
  split; [eexists; split; [reflexivity|reflexivity]|].
  split; [reflexivity|].
  vm_compute. eauto.
Qed.

(** The three addresses of which only "B" advertises the wanted service:
    whatever the order in which the fetches settle, here "C", "A", then "B"
    twice, [discover] is emitted once, for "B". *)
Lemma fetches_settling_out_of_order :
  let s := scanRun serialize outOfOrder (mkScan filtering [] []) in
  emitted (binding s)
  = [EvScanStart;
     EvDiscover "dev_B" "B" "public" true
       (mkAdvertisement None [packUUID legoService] []) false] /\
  List.map (fun a => bleDevice <$> _device_by_uuid (binding s) !! serialize a)
    ["A"; "B"; "C"; "D"]
  = [Some None; Some (Some []); Some None; None] /\
  fetches s = ["A"; "B"; "C"; "B"].
Proof. cbn zeta. repeat split; reflexivity. Qed.

End DiscoveryFacts.
